(** * warelay: the auto-reply pipeline, its configuration and its session store

    A shallow embedding of [src/config/sessions.ts] and [src/config/config.ts],
    and of the parts of the auto-reply pipeline (reply builder, session
    manager, template renderer, media token extractor, command queue) that the
    repository exercises through [src/index.test.ts].

    JavaScript strings are Rocq strings; [undefined] is [None]; a function that
    may throw returns a [res]; [JSON5.parse] and the helpers of [utils.ts] are
    parameters of the sections that use them. *)

From Stdlib Require Import QArith Ascii DecimalString.
From stdpp Require Import gmap strings list fin_maps.

Set Warnings "-register-all".

Local Open Scope list_scope.

(** ** JavaScript values and exceptions *)

Module JS.

(** A computation that either returns or throws. *)
Inductive res (A : Type) : Type :=
| Ok (a : A)
| Throw (e : string).
Arguments Ok {A} a.
Arguments Throw {A} e.

#[export] Instance res_ret : MRet res := fun A a => Ok a.
#[export] Instance res_bind : MBind res := fun A B k m =>
  match m with
  | Ok a => k a
  | Throw e => Throw e
  end.

(** [try { m } catch { h }] *)
Definition try_catch {A} (m : res A) (h : string → res A) : res A :=
  match m with
  | Ok a => Ok a
  | Throw e => h e
  end.

(** Numbers as JSON5 reads them: every finite double is a rational. *)
Inductive num : Type :=
| NFin (q : Q)
| NInf (negative : bool)
| NNaN.

(** The values [JSON5.parse] produces. An object keeps its keys in insertion
    order. *)
Inductive json : Type :=
| JNull
| JBool (b : bool)
| JNum (n : num)
| JStr (s : string)
| JArr (items : list json)
| JObj (fields : list (string * json)).

(** [o[k]] on the own keys of an object literal; [None] is [undefined]. *)
Fixpoint assoc (k : string) (fields : list (string * json)) : option json :=
  match fields with
  | [] => None
  | (k', v) :: rest => if String.eqb k k' then Some v else assoc k rest
  end.

Definition get (k : string) (v : json) : option json :=
  match v with
  | JObj fields => assoc k fields
  | _ => None
  end.

(** [typeof v === "object"]: objects, arrays and [null]. *)
Definition typeof_object (v : json) : bool :=
  match v with
  | JNull | JArr _ | JObj _ => true
  | JBool _ | JNum _ | JStr _ => false
  end.

Definition num_truthy (n : num) : bool :=
  match n with
  | NFin q => negb (Qeq_bool q 0)
  | NInf _ => true
  | NNaN => false
  end.

(** [Boolean(v)] *)
Definition truthy (v : json) : bool :=
  match v with
  | JNull => false
  | JBool b => b
  | JNum n => num_truthy n
  | JStr s => negb (String.eqb s "")
  | JArr _ | JObj _ => true
  end.

(** [Boolean(v)] for a value that may be [undefined]. *)
Definition truthy_opt (v : option json) : bool :=
  match v with
  | Some v => truthy v
  | None => false
  end.

(** [Boolean(s)] for a string. *)
Definition str_truthy (s : string) : bool := negb (String.eqb s "").

(** The file system as [fs.existsSync] and [fs.readFileSync] see it. *)
Inductive file : Type :=
| Unreadable
| Readable (content : string).

Definition existsSync (fs : gmap string file) (p : string) : bool :=
  match fs !! p with
  | Some _ => true
  | None => false
  end.

Definition readFileSync (fs : gmap string file) (p : string) : res string :=
  match fs !! p with
  | Some (Readable raw) => Ok raw
  | Some Unreadable => Throw "EACCES"
  | None => Throw "ENOENT"
  end.

End JS.

Import JS.

(** ** src/config/sessions.ts *)

Module Sessions.

Inductive SessionScope : Type := PerSender | Global.

(** [MsgContext] of [auto-reply/templating.ts]: every field but [Body] is
    optional. *)
Record MsgContext : Type := {
  Body : string;
  From : option string;
  To : option string;
  MediaPath : option string;
  MediaUrl : option string;
  MediaType : option string;
}.

Definition DEFAULT_RESET_TRIGGER : string := "/new".
Definition DEFAULT_IDLE_MINUTES : Z := 60.

(** The first inbound message of the session store test. *)
Definition ctx_1555 : MsgContext :=
  {| Body := "/new hello"; From := Some "+1555"; To := Some "+1666";
     MediaPath := None; MediaUrl := None; MediaType := None |}.

Section WithUtils.

(** [normalizeE164] of [utils.ts] and [JSON5.parse] are not part of these
    files. *)
Variable normalizeE164 : string → string.
Variable JSON5_parse : string → res json.

Definition loadSessionStore (fs : gmap string file) (storePath : string)
  : res json :=
  try_catch
    (raw ← readFileSync fs storePath;
     parsed ← JSON5_parse raw;
     if truthy parsed && typeof_object parsed
     then Ok parsed
     else Ok (JObj []))
    (fun _ => Ok (JObj [])).

Definition deriveSessionKey (scope : SessionScope) (ctx : MsgContext) : string :=
  match scope with
  | Global => "global"
  | PerSender =>
      let from :=
        match From ctx with
        | Some f => if str_truthy f then normalizeE164 f else ""
        | None => ""
        end in
      if str_truthy from then from else "unknown"
  end.

End WithUtils.

(** A message from another sender. *)
Definition ctx_1777 : MsgContext :=
  {| Body := "next"; From := Some "whatsapp:+1777"; To := Some "+1666";
     MediaPath := None; MediaUrl := None; MediaType := None |}.

(** A store with one session, and a parser that knows its text. *)
Definition store_1555 : json :=
  JObj [ ("+1555",
          JObj [ ("sessionId", JStr "session-123");
                 ("updatedAt", JNum (NFin 1700000000000));
                 ("systemSent", JBool true) ]) ].

Definition parse_1555 (raw : string) : res json :=
  if String.eqb raw "store-1555" then Ok store_1555 else Throw "SyntaxError".

End Sessions.

(** ** zod, as far as [config.ts] uses it *)

Module Zod.

Inductive num_check : Type := Int | Positive.

(** The schema builders of [config.ts]. *)
Inductive schema : Type :=
| ZString
| ZNumber (checks : list num_check)
| ZBoolean
| ZLiteral (v : string)
| ZUndefined
| ZUnion (options : list schema)
| ZArray (element : schema)
| ZObject (shape : list (string * schema))
| ZOptional (inner : schema)
| ZRefine (inner : schema) (check : option json → bool).

Inductive SafeParseResult : Type :=
| Success (data : option json)
| Failure.

Definition MAX_SAFE_INTEGER : Z := 9007199254740991.

(** [.int()]: [Number.isSafeInteger], an integer within plus or minus
    [2^53 - 1]. *)
Definition is_integer (n : num) : bool :=
  match n with
  | NFin q =>
      Pos.eqb (Qden (Qred q)) 1
      && Z.leb (Z.abs (Qnum (Qred q))) MAX_SAFE_INTEGER
  | _ => false
  end.

(** [n > 0] *)
Definition is_positive (n : num) : bool :=
  match n with
  | NFin q => Z.ltb 0 (Qnum q)
  | NInf negative => negb negative
  | NNaN => false
  end.

(** [z.number()] takes finite numbers: neither [NaN] nor an infinity. *)
Definition is_finite (n : num) : bool :=
  match n with
  | NFin _ => true
  | NInf _ | NNaN => false
  end.

Definition run_check (n : num) (c : num_check) : bool :=
  match c with
  | Int => is_integer n
  | Positive => is_positive n
  end.

Section Combinators.

(** The parser for the schemas nested in a union, an array or an object. *)
Variable parse : schema → option json → SafeParseResult.

(** A union returns the first option that accepts the input. *)
Fixpoint first_match (input : option json) (opts : list schema)
  : SafeParseResult :=
  match opts with
  | [] => Failure
  | o :: rest =>
      match parse o input with
      | Success d => Success d
      | Failure => first_match input rest
      end
  end.

Fixpoint parse_items (element : schema) (l : list json) : option (list json) :=
  match l with
  | [] => Some []
  | x :: rest =>
      match parse element (Some x), parse_items element rest with
      | Success (Some y), Some ys => Some (y :: ys)
      | _, _ => None
      end
  end.

(** An object schema reads the keys of its shape, in order, and strips the
    others; a key whose value parses to [undefined] is not set. *)
Fixpoint parse_shape (fields : list (string * json))
    (sh : list (string * schema)) : option (list (string * json)) :=
  match sh with
  | [] => Some []
  | (k, field) :: rest =>
      match parse field (assoc k fields), parse_shape fields rest with
      | Success (Some v), Some out => Some ((k, v) :: out)
      | Success None, Some out => Some out
      | _, _ => None
      end
  end.

End Combinators.

(** [schema.safeParse(input)] *)
Fixpoint safeParse (s : schema) (input : option json) {struct s}
  : SafeParseResult :=
  match s with
  | ZString =>
      match input with
      | Some (JStr x) => Success (Some (JStr x))
      | _ => Failure
      end
  | ZNumber checks =>
      match input with
      | Some (JNum n) =>
          if is_finite n && forallb (run_check n) checks
          then Success (Some (JNum n))
          else Failure
      | _ => Failure
      end
  | ZBoolean =>
      match input with
      | Some (JBool b) => Success (Some (JBool b))
      | _ => Failure
      end
  | ZLiteral v =>
      match input with
      | Some (JStr x) => if String.eqb x v then Success (Some (JStr x)) else Failure
      | _ => Failure
      end
  | ZUndefined =>
      match input with
      | None => Success None
      | Some _ => Failure
      end
  | ZUnion options => first_match safeParse input options
  | ZArray element =>
      match input with
      | Some (JArr items) =>
          match parse_items safeParse element items with
          | Some out => Success (Some (JArr out))
          | None => Failure
          end
      | _ => Failure
      end
  | ZObject shape =>
      match input with
      | Some (JObj fields) =>
          match parse_shape safeParse fields shape with
          | Some out => Success (Some (JObj out))
          | None => Failure
          end
      | _ => Failure
      end
  | ZOptional inner =>
      match input with
      | None => Success None
      | Some _ => safeParse inner input
      end
  | ZRefine inner check =>
      match safeParse inner input with
      | Success d => if check d then Success d else Failure
      | Failure => Failure
      end
  end.

(** Induction over schemas, through the lists of a union and of a shape. *)
Section SchemaInduction.

Variable P : schema → Prop.
Hypothesis HString : P ZString.
Hypothesis HNumber : ∀ checks, P (ZNumber checks).
Hypothesis HBoolean : P ZBoolean.
Hypothesis HLiteral : ∀ v, P (ZLiteral v).
Hypothesis HUndefined : P ZUndefined.
Hypothesis HUnion : ∀ options, Forall P options → P (ZUnion options).
Hypothesis HArray : ∀ element, P element → P (ZArray element).
Hypothesis HObject : ∀ shape, Forall (λ kf, P kf.2) shape → P (ZObject shape).
Hypothesis HOptional : ∀ inner, P inner → P (ZOptional inner).
Hypothesis HRefine : ∀ inner check, P inner → P (ZRefine inner check).

Fixpoint schema_induction (s : schema) : P s :=
  match s with
  | ZString => HString
  | ZNumber checks => HNumber checks
  | ZBoolean => HBoolean
  | ZLiteral v => HLiteral v
  | ZUndefined => HUndefined
  | ZUnion options =>
      HUnion options
        ((fix all (l : list schema) : Forall P l :=
            match l with
            | [] => @List.Forall_nil _ P
            | o :: rest =>
                @List.Forall_cons _ P o rest (schema_induction o) (all rest)
            end) options)
  | ZArray element => HArray element (schema_induction element)
  | ZObject shape =>
      HObject shape
        ((fix all (l : list (string * schema)) : Forall (λ kf, P kf.2) l :=
            match l with
            | [] => @List.Forall_nil _ (λ kf, P kf.2)
            | kf :: rest =>
                @List.Forall_cons _ (λ kf, P kf.2) kf rest
                  (schema_induction kf.2) (all rest)
            end) shape)
  | ZOptional inner => HOptional inner (schema_induction inner)
  | ZRefine inner check => HRefine inner check (schema_induction inner)
  end.

End SchemaInduction.

(** A union as [config.ts] writes them: of literals and [z.undefined()]. *)
Definition is_plain_option (s : schema) : bool :=
  match s with
  | ZLiteral _ | ZUndefined => true
  | _ => false
  end.

(** The schemas [config.ts] builds: every union is of literals, and no shape
    names a key twice. *)
Fixpoint plain_schema (s : schema) : bool :=
  match s with
  | ZString | ZNumber _ | ZBoolean | ZLiteral _ | ZUndefined => true
  | ZUnion options => forallb is_plain_option options
  | ZArray element => plain_schema element
  | ZObject shape =>
      bool_decide (NoDup shape.*1)
      && (fix all (l : list (string * schema)) : bool :=
            match l with
            | [] => true
            | kf :: rest => plain_schema kf.2 && all rest
            end) shape
  | ZOptional inner => plain_schema inner
  | ZRefine inner _ => plain_schema inner
  end.

(** The shape of an object schema, also under a refinement. *)
Definition shape_of (s : schema) : list (string * schema) :=
  match s with
  | ZObject shape => shape
  | ZRefine (ZObject shape) _ => shape
  | _ => []
  end.

(** [d] is [v] with some object keys left out: no value is changed. *)
Inductive stripped : json → json → Prop :=
| stripped_null : stripped JNull JNull
| stripped_bool b : stripped (JBool b) (JBool b)
| stripped_num n : stripped (JNum n) (JNum n)
| stripped_str s : stripped (JStr s) (JStr s)
| stripped_arr ds vs : Forall2 stripped ds vs → stripped (JArr ds) (JArr vs)
| stripped_obj dfs vfs :
    (∀ k d, assoc k dfs = Some d → ∃ v, assoc k vfs = Some v ∧ stripped d v) →
    stripped (JObj dfs) (JObj vfs).

End Zod.

(** ** src/config/config.ts *)

Module Config.

Import Zod.

(** [v === s] for a string literal [s]. *)
Definition strict_eq_str (v : option json) (s : string) : bool :=
  match v with
  | Some (JStr x) => String.eqb x s
  | _ => false
  end.

(** [val.k] on the parsed value handed to a refinement. *)
Definition field (k : string) (val : option json) : option json :=
  match val with
  | Some v => get k v
  | None => None
  end.

Definition ReplySchema : schema :=
  ZRefine
    (ZObject
       [ ("mode", ZUnion [ZLiteral "text"; ZLiteral "command"]);
         ("text", ZOptional ZString);
         ("command", ZOptional (ZArray ZString));
         ("cwd", ZOptional ZString);
         ("template", ZOptional ZString);
         ("timeoutSeconds", ZOptional (ZNumber [Int; Positive]));
         ("bodyPrefix", ZOptional ZString);
         ("mediaUrl", ZOptional ZString);
         ("mediaMaxMb", ZOptional (ZNumber [Positive]));
         ("session",
           ZOptional
             (ZObject
                [ ("scope",
                    ZOptional (ZUnion [ZLiteral "per-sender"; ZLiteral "global"]));
                  ("resetTriggers", ZOptional (ZArray ZString));
                  ("idleMinutes", ZOptional (ZNumber [Int; Positive]));
                  ("store", ZOptional ZString);
                  ("sessionArgNew", ZOptional (ZArray ZString));
                  ("sessionArgResume", ZOptional (ZArray ZString));
                  ("sessionArgBeforeBody", ZOptional ZBoolean);
                  ("sendSystemOnce", ZOptional ZBoolean);
                  ("sessionIntro", ZOptional ZString) ]));
         ("claudeOutputFormat",
           ZOptional
             (ZUnion
                [ZLiteral "text"; ZLiteral "json"; ZLiteral "stream-json";
                 ZUndefined])) ])
    (fun val =>
       if strict_eq_str (field "mode" val) "text"
       then truthy_opt (field "text" val)
       else truthy_opt (field "command" val)).

Definition WarelaySchema : schema :=
  ZObject
    [ ("logging",
        ZOptional
          (ZObject
             [ ("level",
                 ZOptional
                   (ZUnion
                      [ZLiteral "silent"; ZLiteral "fatal"; ZLiteral "error";
                       ZLiteral "warn"; ZLiteral "info"; ZLiteral "debug";
                       ZLiteral "trace"]));
               ("file", ZOptional ZString) ]));
      ("inbound",
        ZOptional
          (ZObject
             [ ("allowFrom", ZOptional (ZArray ZString));
               ("transcribeAudio",
                 ZOptional
                   (ZObject
                      [ ("command", ZArray ZString);
                        ("timeoutSeconds", ZOptional (ZNumber [Int; Positive])) ]));
               ("reply", ZOptional ReplySchema) ])) ].

(** The empty configuration [{}]. *)
Definition empty_config : option json := Some (JObj []).

Definition is_null (v : json) : bool :=
  match v with
  | JNull => true
  | _ => false
  end.

Section WithEnv.

(** [CONFIG_PATH] is [~/.warelay/warelay.json] under [os.homedir()];
    [JSON5.parse] is the library's. *)
Variable CONFIG_PATH : string.
Variable JSON5_parse : string → res json.

(** The [console.error] lines write to stderr only and are left out. *)
Definition loadConfig (fs : gmap string file) : res (option json) :=
  try_catch
    (if negb (existsSync fs CONFIG_PATH) then Ok empty_config
     else
       raw ← readFileSync fs CONFIG_PATH;
       parsed ← JSON5_parse raw;
       if negb (typeof_object parsed) || is_null parsed then Ok empty_config
       else
         match safeParse WarelaySchema (Some parsed) with
         | Failure => Ok empty_config
         | Success data => Ok data
         end)
    (fun _ => Ok empty_config).

End WithEnv.

(** The invariant of [ReplyConfig] as the specification words it: exactly one
    of [text] and [command] is populated, and it is the one [mode] names. *)
Definition populated (k : string) (d : json) : bool :=
  match get k d with
  | Some _ => true
  | None => false
  end.

Definition mode_is (m : string) (d : json) : bool :=
  strict_eq_str (get "mode" d) m.

Definition exactly_one_matching_mode (d : json) : bool :=
  xorb (populated "text" d) (populated "command" d)
  && Bool.eqb (populated "text" d) (mode_is "text" d)
  && Bool.eqb (populated "command" d) (mode_is "command" d).

(** A reply block that sets both fields. *)
Definition reply_text_and_command : json :=
  JObj [ ("mode", JStr "text");
         ("text", JStr "hi");
         ("command", JArr [JStr "echo"; JStr "{{Body}}"]) ].

(** The reply block of the command-mode tests. *)
Definition reply_echo : json :=
  JObj [ ("mode", JStr "command");
         ("command", JArr [JStr "echo"; JStr "{{Body}}"]) ].

(** A configuration file with that reply block. *)
Definition config_echo : json :=
  JObj [ ("inbound", JObj [ ("reply", reply_echo) ]) ].

(** A configuration file whose logging block is fine and whose reply block
    lacks the text its mode asks for. *)
Definition config_bad_reply : json :=
  JObj [ ("logging", JObj [ ("level", JStr "info") ]);
         ("inbound", JObj [ ("reply", JObj [ ("mode", JStr "text") ]) ]) ].

(** A configuration file with an allowlist and a transcription command. *)
Definition config_audio : json :=
  JObj [ ("logging", JObj [ ("level", JStr "debug") ]);
         ("inbound",
           JObj [ ("allowFrom", JArr [JStr "+15551234567"]);
                  ("transcribeAudio",
                    JObj [ ("command", JArr [JStr "whisper"; JStr "{{MediaPath}}"]) ]);
                  ("reply", reply_echo) ]) ].

(** A reply block with its optional settings. *)
Definition reply_full : json :=
  JObj [ ("mode", JStr "command");
         ("command", JArr [JStr "claude"; JStr "{{BodyStripped}}"]);
         ("timeoutSeconds", JNum (NFin 120));
         ("mediaMaxMb", JNum (NFin (5 # 2)));
         ("claudeOutputFormat", JStr "text");
         ("session",
           JObj [ ("scope", JStr "per-sender");
                  ("resetTriggers", JArr [JStr "/new"]);
                  ("idleMinutes", JNum (NFin 60)) ]);
         ("note", JStr "not part of the schema") ].

Definition is_string (v : json) : Prop :=
  match v with
  | JStr _ => True
  | _ => False
  end.

End Config.

(** ** Text as the pipeline scans it *)

Module Text.

(** A JavaScript string as the list of its characters. *)
Definition chars (s : string) : list ascii := String.list_ascii_of_string s.
Definition str (l : list ascii) : string := String.string_of_list_ascii l.

Definition nl : ascii := ascii_of_nat 10.
Definition tab : ascii := ascii_of_nat 9.
Definition space : ascii := ascii_of_nat 32.
Definition backtick : ascii := ascii_of_nat 96.

(** The line feed as a string. *)
Definition NL : string := String nl "".

(** [\s] on ASCII text. *)
Definition is_space (c : ascii) : bool :=
  let n := nat_of_ascii c in
  ((9 <=? n)%nat && (n <=? 13)%nat) || (n =? 32)%nat.

(** [[ \t]] *)
Definition is_blank (c : ascii) : bool :=
  Ascii.eqb c space || Ascii.eqb c tab.

Fixpoint trimStart (s : list ascii) : list ascii :=
  match s with
  | [] => []
  | c :: rest => if is_space c then trimStart rest else s
  end.

(** Drop the characters that satisfy [p] from the end. *)
Fixpoint drop_end (p : ascii → bool) (s : list ascii) : list ascii :=
  match s with
  | [] => []
  | c :: rest =>
      match drop_end p rest with
      | [] => if p c then [] else [c]
      | r => c :: r
      end
  end.

Definition trimEnd (s : list ascii) : list ascii := drop_end is_space s.

(** [s.trim()] *)
Definition trim (s : list ascii) : list ascii := trimEnd (trimStart s).

(** [s.startsWith(p)], returning what follows [p]. *)
Fixpoint strip_prefix (p s : list ascii) : option (list ascii) :=
  match p, s with
  | [], _ => Some s
  | _ :: _, [] => None
  | a :: p', c :: s' => if Ascii.eqb a c then strip_prefix p' s' else None
  end.

Definition startsWith (p s : list ascii) : bool :=
  match strip_prefix p s with
  | Some _ => true
  | None => false
  end.

(** [s.includes(needle)] *)
Fixpoint includes (needle s : list ascii) : bool :=
  startsWith needle s
  || match s with
     | [] => false
     | _ :: rest => includes needle rest
     end.

(** [s.slice(0, n)] *)
Definition slice0 (n : nat) (s : list ascii) : list ascii := take n s.

(** [s.split("\n")] *)
Fixpoint lines (s : list ascii) : list (list ascii) :=
  match s with
  | [] => [[]]
  | c :: rest =>
      match lines rest with
      | [] => [[c]]
      | l :: ls => if Ascii.eqb c nl then [] :: l :: ls else (c :: l) :: ls
      end
  end.

(** [ls.join("\n")] *)
Fixpoint unlines (ls : list (list ascii)) : list ascii :=
  match ls with
  | [] => []
  | [l] => l
  | l :: rest => l ++ nl :: unlines rest
  end.

End Text.

(** ** The reply builder: what a command's outcome becomes *)

Module Reply.

Import Text.

Record ReplyResult : Type := {
  text : string;
  mediaUrl : option string;
}.

(** How the external command ended: normally with its stdout, or killed at the
    timeout with whatever stdout was captured by then. *)
Inductive RunOutcome : Type :=
| Completed (stdout : string)
| TimedOut (partial : option string).

Definition DEFAULT_TIMEOUT_SECONDS : N := 600.
Definition PARTIAL_SNIPPET_CHARS : nat := 800.

(** A number in a template literal. *)
Definition decimal (n : N) : string := NilZero.string_of_uint (N.to_uint n).

Definition timeoutMessage (seconds : N) : string :=
  "Command timed out after " +:+ decimal seconds
  +:+ "s. Try a shorter prompt or split the request.".

Definition PARTIAL_HEADER : string := "Partial output before timeout:".

(** Modelled from the spec: [getReplyFromConfig] (the reply builder) is not in
    src/, only its tests are. Section 4.4 step 4: on timeout the text is the
    timeout message for the configured [timeoutSeconds] (600 when unset); when
    partial stdout was captured and is not empty, two lines are appended, the
    header and the first 800 characters of the stdout followed by "...". *)
Definition timeoutReply (timeoutSeconds : option N) (partial : option string)
  : ReplyResult :=
  let base := timeoutMessage (default DEFAULT_TIMEOUT_SECONDS timeoutSeconds) in
  match partial with
  | Some out =>
      if str_truthy out
      then {| text := base +:+ NL +:+ PARTIAL_HEADER +:+ NL
                      +:+ str (slice0 PARTIAL_SNIPPET_CHARS (chars out)) +:+ "...";
              mediaUrl := None |}
      else {| text := base; mediaUrl := None |}
  | None => {| text := base; mediaUrl := None |}
  end.

(** [haystack.includes(needle)] on strings. *)
Definition str_includes (haystack needle : string) : bool :=
  includes (chars needle) (chars haystack).

(** ["x".repeat(n)] *)
Definition repeat_x (n : nat) : string := str (replicate n "x"%char).

End Reply.

(** ** The command queue *)

Module CommandQueue.

(** How a task's command ended. *)
Inductive outcome : Type := Resolved | Rejected | TimedOutKilled.

(** Modelled from the spec: [src/process/command-queue.ts] is not in src/.
    Sections 3 (QueueTask), 4.6 and 9: the queue is an ordered task list and a
    single "currently running" flag; a task is enqueued when a caller asks for
    execution, dequeued and run when it is at the head and no task is running,
    and removed when it completes, whether it succeeded or failed.

    [executing] lists the commands that are executing, and [started] and
    [settled] record the history, so that the guarantees can be stated; the
    queue itself decides on [pending] and [running] only. *)
Record state : Type := {
  pending : list nat;
  running : bool;
  executing : list nat;
  started : list nat;
  settled : list (nat * outcome);
}.

Definition initial : state :=
  {| pending := []; running := false; executing := []; started := [];
     settled := [] |}.

(** Run the head of the list if nothing is running. *)
Definition drain (s : state) : state :=
  if running s then s
  else
    match pending s with
    | [] => s
    | t :: rest =>
        {| pending := rest; running := true; executing := t :: executing s;
           started := started s ++ [t]; settled := settled s |}
    end.

(** [enqueue(fn)]: the task joins the end of the list. *)
Definition enqueue (t : nat) (s : state) : state :=
  drain {| pending := pending s ++ [t]; running := running s;
           executing := executing s; started := started s;
           settled := settled s |}.

(** The executing command ends: its promise is settled with the outcome, the
    flag is cleared and the next task is admitted. *)
Definition finish (o : outcome) (s : state) : state :=
  match executing s with
  | [] => s
  | t :: others =>
      drain {| pending := pending s; running := false; executing := others;
               started := started s; settled := settled s ++ [(t, o)] |}
  end.

Inductive event : Type :=
| Enqueue (t : nat)
| Finish (o : outcome).

Definition step (s : state) (e : event) : state :=
  match e with
  | Enqueue t => enqueue t s
  | Finish o => finish o s
  end.

Definition run (evs : list event) (s : state) : state := foldl step s evs.

(** The tasks submitted by a trace, in arrival order. *)
Fixpoint arrivals (evs : list event) : list nat :=
  match evs with
  | [] => []
  | Enqueue t :: rest => t :: arrivals rest
  | Finish _ :: rest => arrivals rest
  end.

(** Two requests arrive, then the first command fails and the second one
    succeeds. *)
Definition two_requests : list event :=
  [Enqueue 1; Enqueue 2; Finish Rejected; Finish Resolved].

End CommandQueue.

(** ** The media token extractor *)

Module Media.

Import Text Reply.

Definition MARKER : list ascii := chars "MEDIA:".

(** A token runs up to the first whitespace character; a backtick closes a
    wrapped token. *)
Definition is_token_char (c : ascii) : bool :=
  negb (is_space c) && negb (Ascii.eqb c backtick).

(** Punctuation that command output leaves behind a path: quotes, closing
    braces, brackets and parentheses, commas and backslashes. *)
Definition double_quote : ascii := ascii_of_nat 34.
Definition backslash : ascii := ascii_of_nat 92.

Definition is_trailing_punct (c : ascii) : bool :=
  existsb (Ascii.eqb c) (double_quote :: backslash :: chars "'})],").

Definition strip_trailing_punct (s : list ascii) : list ascii :=
  drop_end is_trailing_punct s.

(** Skip one character if it satisfies [p]. *)
Definition skip_one (p : ascii → bool) (s : list ascii) : list ascii :=
  match s with
  | c :: rest => if p c then rest else s
  | [] => []
  end.

(** The longest prefix whose characters satisfy [p], and what follows it. *)
Fixpoint span (p : ascii → bool) (s : list ascii) : list ascii * list ascii :=
  match s with
  | [] => ([], [])
  | c :: rest =>
      if p c then let (a, b) := span p rest in (c :: a, b) else ([], s)
  end.

(** What follows a marker: an optional space, an optional opening backtick,
    the token, an optional closing backtick. Returns the candidate (the token
    without trailing punctuation) and the text after the match. *)
Definition read_token (after : list ascii) : list ascii * list ascii :=
  let s1 := skip_one (Ascii.eqb space) after in
  let s2 := skip_one (Ascii.eqb backtick) s1 in
  let (token, rest) := span is_token_char s2 in
  (strip_trailing_punct token, skip_one (Ascii.eqb backtick) rest).

(** A plausible URL or filesystem path with no embedded whitespace. *)
Definition isValidMedia (candidate : list ascii) : bool :=
  match candidate with
  | [] => false
  | _ :: _ =>
      negb (existsb is_space candidate)
      && (startsWith (chars "http://") candidate
          || startsWith (chars "https://") candidate
          || startsWith (chars "/") candidate
          || startsWith (chars "./") candidate)
  end.

(** The first marker whose candidate is valid: the candidate, and the text
    with the match taken out. [before] is the text already passed. *)
Fixpoint scan (before s : list ascii) : option (list ascii * list ascii) :=
  match s with
  | [] => None
  | c :: rest =>
      match strip_prefix MARKER s with
      | Some after =>
          let (candidate, remaining) := read_token after in
          if isValidMedia candidate then Some (candidate, before ++ remaining)
          else scan (before ++ [c]) rest
      | None => scan (before ++ [c]) rest
      end
  end.

(** Blanks in front of a line feed go. *)
Fixpoint strip_blanks_before_nl (s : list ascii) : list ascii :=
  match s with
  | [] => []
  | c :: rest =>
      let r := strip_blanks_before_nl rest in
      if is_blank c && startsWith [nl] r then r else c :: r
  end.

(** A run of two or more blanks becomes one space. [in_run] tells that the
    run's space was already written. *)
Fixpoint squeeze_blanks (in_run : bool) (s : list ascii) : list ascii :=
  match s with
  | [] => []
  | c :: rest =>
      if is_blank c then
        if in_run then squeeze_blanks true rest
        else
          match rest with
          | c' :: _ =>
              if is_blank c' then space :: squeeze_blanks true rest
              else c :: squeeze_blanks false rest
          | [] => [c]
          end
      else c :: squeeze_blanks false rest
  end.

(** A run of line feeds becomes one line feed. *)
Fixpoint squeeze_newlines (s : list ascii) : list ascii :=
  match s with
  | [] => []
  | c :: rest =>
      if Ascii.eqb c nl && startsWith [nl] rest then squeeze_newlines rest
      else c :: squeeze_newlines rest
  end.

(** The text left once the marker is out: the blank-line artifacts around it
    are collapsed. *)
Definition cleanup (s : list ascii) : list ascii :=
  trim (squeeze_newlines (squeeze_blanks false (strip_blanks_before_nl s))).

(** The lines that carry no marker. *)
Definition drop_marker_lines (s : list ascii) : list ascii :=
  trim (unlines (List.filter (λ l, negb (includes MARKER l)) (lines s))).

(** Modelled from the spec: [splitMediaFromOutput] ([src/media/parse.ts]) is
    not in src/, only its tests are. Section 4.5: the first marker with a valid
    candidate is honoured, the marker and its token are removed and the
    blank-line artifacts collapsed; without a valid candidate there is no
    attachment. Where the repository's tests fix the outcome the model follows
    them: the test "ignores invalid MEDIA lines with whitespace" expects the
    line of a rejected marker to be dropped from the text. *)
Definition splitMediaFromOutput (raw : string) : ReplyResult :=
  let t := trim (chars raw) in
  match scan [] t with
  | Some (url, remaining) =>
      {| text := str (cleanup remaining); mediaUrl := Some (str url) |}
  | None =>
      {| text := str (if includes MARKER t then drop_marker_lines t else t);
         mediaUrl := None |}
  end.

Definition NO_OUTPUT : string := "(command produced no output)".

(** Modelled from the spec: section 4.4 steps 4 to 6 for a command whose
    output is plain text: the timeout reply, the placeholder for empty output,
    and otherwise the trimmed stdout handed to the extractor. *)
Definition commandReply (timeoutSeconds : option N) (o : RunOutcome)
  : ReplyResult :=
  match o with
  | TimedOut partial => timeoutReply timeoutSeconds partial
  | Completed stdout =>
      match trim (chars stdout) with
      | [] => {| text := NO_OUTPUT; mediaUrl := None |}
      | trimmed => splitMediaFromOutput (str trimmed)
      end
  end.

(** [s1 + NL + s2 ...]: the stdout of the tests, line by line. *)
Definition stdout_lines (ls : list string) : string :=
  str (unlines (chars <$> ls)).

(** The stdout of the test "ignores invalid MEDIA lines with whitespace". *)
Definition stdout_invalid_media : string :=
  stdout_lines ["hello"; "MEDIA: not a url with spaces"; "rest"; ""].

End Media.

(** ** The reply builder: flags for the assistant binary *)

Module Builder.

Import Text.

Definition CLAUDE_BIN : string := "claude".

Inductive ClaudeOutputFormat : Type := FormatText | FormatJson | FormatStreamJson.

Definition format_name (f : ClaudeOutputFormat) : string :=
  match f with
  | FormatText => "text"
  | FormatJson => "json"
  | FormatStreamJson => "stream-json"
  end.

(** The print flag, in either spelling. *)
Definition isPrintFlag (part : string) : bool :=
  String.eqb part "-p" || String.eqb part "--print".

(** The output format flag, alone or with its value attached. *)
Definition isOutputFormatFlag (part : string) : bool :=
  String.eqb part "--output-format"
  || startsWith (chars "--output-format=") (chars part).

(** An argv without its last element, and that element. *)
Fixpoint split_last (argv : list string) : option (list string * string) :=
  match argv with
  | [] => None
  | [x] => Some ([], x)
  | x :: rest =>
      match split_last rest with
      | Some (front, z) => Some (x :: front, z)
      | None => None
      end
  end.

(** The arguments in front of the prompt, with the flags that were missing
    put behind them. *)
Definition injectFlags (fmt : option ClaudeOutputFormat) (front : list string)
  : list string :=
  let with_format :=
    if existsb isOutputFormatFlag front then front
    else front ++ ["--output-format"; format_name (default FormatText fmt)] in
  if existsb isPrintFlag with_format then with_format
  else with_format ++ ["-p"].

(** Modelled from the spec: the reply builder ([getReplyFromConfig]) is not
    in src/, only its tests are. Section 4.4 step 2: when [command[0]] is the
    assistant binary, a print flag and an [--output-format] flag (the
    configured format, "text" when unset) are injected unless already present
    among the arguments in front of the prompt, and the identity preamble is
    put in front of the prompt, which stays the final element. Any other
    binary leaves the argv as it is. The preamble is a constant of the missing
    file. *)
Definition buildClaudeArgv (preamble : string)
    (fmt : option ClaudeOutputFormat) (argv : list string) : list string :=
  match argv with
  | [] => []
  | bin :: args =>
      if String.eqb bin CLAUDE_BIN then
        match split_last args with
        | Some (front, prompt) =>
            bin :: injectFlags fmt front ++ [preamble +:+ prompt]
        | None => bin :: injectFlags fmt []
        end
      else argv
  end.

(** A stand-in for the identity preamble, with the two phrases the tests look
    for. *)
Definition test_preamble : string :=
  "You are Clawd (Claude) running in /Users/steipete/clawd. ".

End Builder.

(** ** The template renderer and the session manager *)

Module SessionManager.

Import Text Sessions Builder.

(** [SessionEntry] of [sessions.ts]. *)
Record SessionEntry : Type := {
  sessionId : string;
  updatedAt : Z;
  systemSent : option bool;
}.

(** [SessionConfig] of [config.ts]: every field is optional. *)
Record SessionConfig : Type := {
  scope : option SessionScope;
  resetTriggers : option (list string);
  idleMinutes : option Z;
  store : option string;
  sessionArgNew : option (list string);
  sessionArgResume : option (list string);
  sessionArgBeforeBody : option bool;
  sendSystemOnce : option bool;
  sessionIntro : option string;
}.

(** The fields of a command-mode [reply] that shape the argv; the session
    configuration is present. *)
Record ReplyConfig : Type := {
  command : list string;
  template : option string;
  bodyPrefix : option string;
  session : SessionConfig;
}.

Definition open_brace : ascii := ascii_of_nat 123.
Definition close_brace : ascii := ascii_of_nat 125.

(** Modelled from the spec: the template renderer ([auto-reply/templating.ts])
    is not in src/. Section 4.1: every [{{Key}}] is replaced by the value of
    the key, the empty string when the key has none. [key] is the placeholder
    being read, if any; an opening that is never closed stays as it is. *)
Fixpoint render (value : string → string) (key : option (list ascii))
    (s : list ascii) : list ascii :=
  match key with
  | None =>
      match s with
      | [] => []
      | c :: rest =>
          match rest with
          | c' :: rest' =>
              if Ascii.eqb c open_brace && Ascii.eqb c' open_brace
              then render value (Some []) rest'
              else c :: render value None rest
          | [] => [c]
          end
      end
  | Some k =>
      match s with
      | [] => open_brace :: open_brace :: k
      | c :: rest =>
          match rest with
          | c' :: rest' =>
              if Ascii.eqb c close_brace && Ascii.eqb c' close_brace
              then chars (value (str k)) ++ render value None rest'
              else render value (Some (k ++ [c])) rest
          | [] => open_brace :: open_brace :: k ++ [c]
          end
      end
  end.

Definition applyTemplate (value : string → string) (tpl : string) : string :=
  str (render value None (chars tpl)).

(** The keys of section 4.1. [Body] is the body that reaches the command,
    [BodyStripped] the body without the reset trigger. *)
Definition templateValue (ctx : MsgContext) (body stripped sid : string)
    (key : string) : string :=
  if String.eqb key "Body" then body
  else if String.eqb key "BodyStripped" then stripped
  else if String.eqb key "From" then default "" (From ctx)
  else if String.eqb key "To" then default "" (To ctx)
  else if String.eqb key "MediaPath" then default "" (MediaPath ctx)
  else if String.eqb key "MediaUrl" then default "" (MediaUrl ctx)
  else if String.eqb key "MediaType" then default "" (MediaType ctx)
  else if String.eqb key "SessionId" then sid
  else "".

(** The body behind the first trigger that the trimmed body starts with,
    without the whitespace that follows the trigger. *)
Fixpoint matchTrigger (triggers : list string) (trimmed : list ascii)
  : option (list ascii) :=
  match triggers with
  | [] => None
  | t :: rest =>
      match strip_prefix (chars t) trimmed with
      | Some after => Some (trimStart after)
      | None => matchTrigger rest trimmed
      end
  end.

Record Resolved : Type := {
  key : string;
  entry : SessionEntry;
  isNew : bool;
  bodyStripped : string;
}.

(** The session fragment goes in front of the body, the last element. *)
Definition insertBeforeBody (sessionArgs argv : list string) : list string :=
  match split_last argv with
  | Some (front, body) => front ++ sessionArgs ++ [body]
  | None => sessionArgs
  end.

(** The template goes behind [argv[0]]. *)
Definition insertTemplate (t : string) (argv : list string) : list string :=
  match argv with
  | [] => [t]
  | bin :: rest => bin :: t :: rest
  end.

(** One command-mode turn: the entry that is saved, the values the templates
    see, the argv that is run and the store afterwards. *)
Record Turn : Type := {
  resolved : Resolved;
  saved : SessionEntry;
  value : string → string;
  argv : list string;
  store_after : gmap string SessionEntry;
}.

Section WithUtils.

Variable normalizeE164 : string → string.

(** Modelled from the spec: the session manager is part of
    [getReplyFromConfig], which is not in src/. Section 4.2 steps 1 to 5; the
    store is the mapping itself, [now] is the clock and [freshId] the id the
    generator would hand out. *)
Definition resolve (cfg : SessionConfig) (store : gmap string SessionEntry)
    (now : Z) (freshId : string) (ctx : MsgContext) : Resolved :=
  let key := deriveSessionKey normalizeE164 (default PerSender (scope cfg)) ctx in
  let triggers := default [DEFAULT_RESET_TRIGGER] (resetTriggers cfg) in
  let idleMs := (default DEFAULT_IDLE_MINUTES (idleMinutes cfg) * 60000)%Z in
  let fresh := {| sessionId := freshId; updatedAt := now;
                  systemSent := Some false |} in
  match matchTrigger triggers (trim (chars (Body ctx))) with
  | Some stripped =>
      {| key := key; entry := fresh; isNew := true;
         bodyStripped := str stripped |}
  | None =>
      match store !! key with
      | Some e =>
          if (now - updatedAt e >? idleMs)%Z
          then {| key := key; entry := fresh; isNew := true;
                  bodyStripped := Body ctx |}
          else {| key := key;
                  entry := {| sessionId := sessionId e; updatedAt := now;
                              systemSent := systemSent e |};
                  isNew := false; bodyStripped := Body ctx |}
      | None =>
          {| key := key; entry := fresh; isNew := true;
             bodyStripped := Body ctx |}
      end
  end.

(** Modelled from the spec: section 4.2 steps 6 to 8 and section 4.4 step 1,
    with the positions the session store tests of [index.test.ts] show: the
    template directly behind [argv[0]], the session fragment in front of the
    body unless [sessionArgBeforeBody] is false, and, with [sendSystemOnce],
    intro, body prefix and template on the first turn of a session only. The
    flags for the assistant binary ([Builder.buildClaudeArgv]) are a later
    step and not part of this argv. *)
Definition turn (cfg : ReplyConfig) (store : gmap string SessionEntry)
    (now : Z) (freshId : string) (ctx : MsgContext) : Turn :=
  let s := session cfg in
  let r := resolve s store now freshId ctx in
  let once := default false (sendSystemOnce s) in
  let sent := default false (systemSent (entry r)) in
  let prefixed :=
    if once && sent then bodyStripped r
    else default "" (bodyPrefix cfg) +:+ bodyStripped r in
  let body :=
    match sessionIntro s with
    | Some intro =>
        if once && negb sent then intro +:+ NL +:+ NL +:+ prefixed
        else prefixed
    | None => prefixed
    end in
  let saved := {| sessionId := sessionId (entry r); updatedAt := now;
                  systemSent := Some ((once && negb sent) || sent) |} in
  let value := templateValue ctx body (bodyStripped r) (sessionId saved) in
  let rendered := applyTemplate value <$> command cfg in
  let with_template :=
    match template cfg with
    | Some t =>
        if once && sent then rendered
        else insertTemplate (applyTemplate value t) rendered
    | None => rendered
    end in
  let sessionArgs :=
    applyTemplate value
      <$> default [] (if isNew r then sessionArgNew s else sessionArgResume s) in
  let argv :=
    if default true (sessionArgBeforeBody s)
    then insertBeforeBody sessionArgs with_template
    else with_template ++ sessionArgs in
  {| resolved := r; saved := saved; value := value; argv := argv;
     store_after := <[key r := saved]> store |}.

End WithUtils.

(** The configuration of the session store test. *)
Definition session_test_config : ReplyConfig :=
  {| command := ["echo"; "{{Body}}"];
     template := Some "[tmpl]";
     bodyPrefix := None;
     session :=
       {| scope := Some PerSender; resetTriggers := Some ["/new"];
          idleMinutes := None; store := Some "/tmp/warelay-store.json";
          sessionArgNew := Some ["--sid"; "{{SessionId}}"];
          sessionArgResume := Some ["--resume"; "{{SessionId}}"];
          sessionArgBeforeBody := None; sendSystemOnce := None;
          sessionIntro := None |} |}.

(** The configuration of the system prompt test. *)
Definition system_once_test_config : ReplyConfig :=
  {| command := ["echo"; "{{Body}}"];
     template := Some "[tmpl]";
     bodyPrefix := Some "[pfx] ";
     session :=
       {| scope := None; resetTriggers := None;
          idleMinutes := None; store := Some "/tmp/warelay-store.json";
          sessionArgNew := Some ["--sid"; "{{SessionId}}"];
          sessionArgResume := Some ["--resume"; "{{SessionId}}"];
          sessionArgBeforeBody := None; sendSystemOnce := Some true;
          sessionIntro := Some "SYS" |} |}.

Definition message (body from to : string) : MsgContext :=
  {| Body := body; From := Some from; To := Some to;
     MediaPath := None; MediaUrl := None; MediaType := None |}.

End SessionManager.

(** * Properties *)

(** ** The session store file and the session key *)

Section SessionsFacts.

Import Sessions.

Variable normalizeE164 : string → string.
Variable JSON5_parse : string → res json.

Lemma loadSessionStore_returns (fs : gmap string file) (storePath : string) :
  ∃ store, loadSessionStore JSON5_parse fs storePath = Ok store.
Proof.
  unfold loadSessionStore, readFileSync.
  destruct (fs !! storePath) as [[|raw]|]; simpl; eauto.
  destruct (JSON5_parse raw) as [parsed|e]; simpl; eauto.
  destruct (truthy parsed && typeof_object parsed); simpl; eauto.
Qed.

Lemma loadSessionStore_missing (fs : gmap string file) (storePath : string) :
  fs !! storePath = None →
  loadSessionStore JSON5_parse fs storePath = Ok (JObj []).
Proof. intros H. unfold loadSessionStore, readFileSync. by rewrite H. Qed.

Lemma loadSessionStore_unreadable (fs : gmap string file) (storePath : string) :
  fs !! storePath = Some Unreadable →
  loadSessionStore JSON5_parse fs storePath = Ok (JObj []).
Proof. intros H. unfold loadSessionStore, readFileSync. by rewrite H. Qed.

Lemma loadSessionStore_unparseable (fs : gmap string file) storePath raw e :
  fs !! storePath = Some (Readable raw) →
  JSON5_parse raw = Throw e →
  loadSessionStore JSON5_parse fs storePath = Ok (JObj []).
Proof.
  intros H Hp. unfold loadSessionStore, readFileSync. rewrite H. simpl.
  by rewrite Hp.
Qed.

Lemma loadSessionStore_primitive (fs : gmap string file) storePath raw parsed :
  fs !! storePath = Some (Readable raw) →
  JSON5_parse raw = Ok parsed →
  typeof_object parsed = false ∨ parsed = JNull →
  loadSessionStore JSON5_parse fs storePath = Ok (JObj []).
Proof.
  intros H Hp Hv. unfold loadSessionStore, readFileSync. rewrite H. simpl.
  rewrite Hp. simpl.
  destruct Hv as [Hv| ->]; [rewrite Hv, andb_false_r | ]; done.
Qed.

Lemma loadSessionStore_object (fs : gmap string file) storePath raw fields :
  fs !! storePath = Some (Readable raw) →
  JSON5_parse raw = Ok (JObj fields) →
  loadSessionStore JSON5_parse fs storePath = Ok (JObj fields).
Proof.
  intros H Hp. unfold loadSessionStore, readFileSync. rewrite H. simpl.
  by rewrite Hp.
Qed.

(** C8, the case the guard [parsed && typeof parsed === "object"] lets
    through: a store file that holds a JSON array is not replaced by the empty
    mapping; the array itself is returned as the store. *)
Theorem loadSessionStore_array (fs : gmap string file) storePath raw items :
  fs !! storePath = Some (Readable raw) →
  JSON5_parse raw = Ok (JArr items) →
  loadSessionStore JSON5_parse fs storePath = Ok (JArr items) ∧
  loadSessionStore JSON5_parse fs storePath ≠ Ok (JObj []).
Proof.
  intros H Hp. unfold loadSessionStore, readFileSync. rewrite H. simpl.
  rewrite Hp. simpl. split; [done | discriminate].
Qed.

(** C7: the conversation key is the literal "global" when the scope is global;
    otherwise it is the normalised E.164 form of [From], and the literal
    "unknown" when [From] is absent, empty, or normalises to the empty
    string. *)
Theorem deriveSessionKey_spec (scope : SessionScope) (ctx : MsgContext) :
  (scope = Global → deriveSessionKey normalizeE164 scope ctx = "global") ∧
  (scope = PerSender →
   ∀ f, From ctx = Some f → f ≠ "" → normalizeE164 f ≠ "" →
        deriveSessionKey normalizeE164 scope ctx = normalizeE164 f) ∧
  (scope = PerSender →
   From ctx = None ∨ From ctx = Some "" ∨
     (∃ f, From ctx = Some f ∧ normalizeE164 f = "") →
   deriveSessionKey normalizeE164 scope ctx = "unknown").
Proof.
  split; [by intros -> | split].
  - intros -> f Hf Hne Hn. unfold deriveSessionKey, str_truthy. rewrite Hf.
    apply String.eqb_neq in Hne, Hn. by rewrite Hne; simpl; rewrite Hn.
  - intros -> [H | [H | (f & H & Hn)]]; unfold deriveSessionKey, str_truthy;
      rewrite H; try done.
    destruct (String.eqb f ""); simpl; [done | by rewrite Hn].
Qed.

End SessionsFacts.

(** The key of a sender whose address is already in E.164 form. *)
Lemma deriveSessionKey_spec_witness :
  Sessions.deriveSessionKey (λ s, s) Sessions.PerSender Sessions.ctx_1555
  = "+1555".
Proof.
  refine (proj1 (proj2 (deriveSessionKey_spec (λ s, s) Sessions.PerSender
                          Sessions.ctx_1555))
            eq_refl "+1555" eq_refl _ _); discriminate.
Defined.

(** A store file holding [[1]], read with a parser that knows that one text. *)
Lemma loadSessionStore_array_witness :
  Sessions.loadSessionStore
    (λ raw, if String.eqb raw "[1]" then Ok (JArr [JNum (NFin 1)])
            else Throw "SyntaxError")
    {[ "/tmp/sessions.json" := Readable "[1]" ]} "/tmp/sessions.json"
  = Ok (JArr [JNum (NFin 1)]).
Proof.
  refine (proj1 (loadSessionStore_array _ _ "/tmp/sessions.json" "[1]" _ _ _)).
  - apply lookup_singleton_eq.
  - reflexivity.
Defined.

(** ** What an object schema returns *)

Section ZodFacts.

Import Zod.

Variable parse : schema → option json → SafeParseResult.

Lemma assoc_cons_ne k k' v (out : list (string * json)) :
  k ≠ k' → assoc k ((k', v) :: out) = assoc k out.
Proof. intros Hne. simpl. apply String.eqb_neq in Hne. by rewrite Hne. Qed.

Lemma assoc_cons_eq k v (out : list (string * json)) :
  assoc k ((k, v) :: out) = Some v.
Proof. simpl. by rewrite String.eqb_refl. Qed.

(** The output carries no key outside the shape. *)
Lemma parse_shape_stripped fields sh out k :
  parse_shape parse fields sh = Some out →
  k ∉ sh.*1 →
  assoc k out = None.
Proof.
  revert out. induction sh as [|[k' f'] rest IH]; intros out Hp Hk; simpl in Hp.
  - by inversion Hp.
  - apply not_elem_of_cons in Hk as [Hne Hk]. simpl in Hne.
    destruct (parse f' (assoc k' fields)) as [[v|]|]; [| |done];
      destruct (parse_shape parse fields rest) as [out'|]; try done;
      inversion Hp; subst; [rewrite assoc_cons_ne by done|]; by apply IH.
Qed.

(** Each key of the shape holds what its own schema made of the input's
    value. *)
Lemma parse_shape_lookup fields sh out k f :
  parse_shape parse fields sh = Some out →
  NoDup sh.*1 →
  (k, f) ∈ sh →
  parse f (assoc k fields) = Success (assoc k out).
Proof.
  revert out. induction sh as [|[k' f'] rest IH]; intros out Hp Hnd Hin.
  - by apply elem_of_nil in Hin.
  - simpl in Hp, Hnd. apply NoDup_cons in Hnd as [Hk' Hnd].
    apply elem_of_cons in Hin as [Heq | Hin].
    + inversion Heq; subst k' f'.
      destruct (parse f (assoc k fields)) as [[v|]|] eqn:Hf; [| |done];
        destruct (parse_shape parse fields rest) as [out'|] eqn:Hr; try done;
        inversion Hp; subst.
      * by rewrite assoc_cons_eq.
      * by rewrite (parse_shape_stripped _ _ _ _ Hr Hk').
    + assert (k ≠ k') as Hne.
      { intros ->. apply Hk'. apply list_elem_of_fmap. by exists (k', f). }
      destruct (parse f' (assoc k' fields)) as [[v|]|]; [| |done];
        destruct (parse_shape parse fields rest) as [out'|] eqn:Hr; try done;
        inversion Hp; subst; [rewrite assoc_cons_ne by done|]; by apply IH.
Qed.

End ZodFacts.

(** ** The reply block and the configuration file *)

Section ConfigFacts.

Import Zod Config.

Lemma safeParse_object_inv shape v d :
  safeParse (ZObject shape) (Some v) = Success d →
  ∃ fields out, v = JObj fields ∧ d = Some (JObj out) ∧
                parse_shape safeParse fields shape = Some out.
Proof.
  simpl. destruct v as [| | | | |fields]; try done.
  destruct (parse_shape safeParse fields shape) as [out|] eqn:Hs; [|done].
  intros [= <-]. eauto.
Qed.

Lemma parse_items_strings items out :
  parse_items safeParse ZString items = Some out → Forall is_string out.
Proof.
  revert out. induction items as [|x rest IH]; intros out; simpl.
  - intros [= <-]. constructor.
  - destruct x; try done.
    destruct (parse_items safeParse ZString rest) as [ys|]; [|done].
    intros [= <-]. constructor; [exact I | by apply IH].
Qed.

(** C9 as amended: a reply block the validator accepts has the field its mode
    names: with mode "text", [text] is a non-empty string; with mode "command",
    [command] is an array of strings. The other field is not constrained. *)
Theorem ReplySchema_mode_field (v d : json) :
  safeParse ReplySchema (Some v) = Success (Some d) →
  (get "mode" d = Some (JStr "text") ∧
     ∃ s, get "text" d = Some (JStr s) ∧ s ≠ "") ∨
  (get "mode" d = Some (JStr "command") ∧
     ∃ argv, get "command" d = Some (JArr argv) ∧ Forall is_string argv).
Proof.
  unfold ReplySchema.
  change (safeParse (ZRefine ?inner ?check) ?i)
    with (match safeParse inner i with
          | Success d => if check d then Success d else Failure
          | Failure => Failure
          end).
  match goal with
  | |- context [safeParse (ZObject ?sh) _] => set (shape := sh)
  end.
  destruct (safeParse (ZObject shape) (Some v)) as [d'|] eqn:Hobj; [|done].
  apply safeParse_object_inv in Hobj as (fields & out & -> & -> & Hshape).
  assert (NoDup shape.*1) as Hnd by (apply (bool_decide_unpack _); by vm_compute).
  pose proof (λ k f, parse_shape_lookup safeParse fields shape out k f Hshape Hnd)
    as Hlook.
  assert (∀ k f, (k, f) ∈ shape → ∃ r, safeParse f (assoc k fields) = Success r
                                        ∧ assoc k out = r) as Hl.
  { intros k f Hin. eexists. split; [by apply Hlook | done]. }
  destruct (Hl "mode" (ZUnion [ZLiteral "text"; ZLiteral "command"]))
    as (m & Hm & Hmo); [subst shape; repeat first [apply list_elem_of_here | apply list_elem_of_further]|].
  destruct (Hl "text" (ZOptional ZString)) as (t & Ht & Hto);
    [subst shape; repeat first [apply list_elem_of_here | apply list_elem_of_further]|].
  destruct (Hl "command" (ZOptional (ZArray ZString))) as (c & Hc & Hco);
    [subst shape; repeat first [apply list_elem_of_here | apply list_elem_of_further]|].
  clear Hl Hlook Hshape Hnd. clearbody shape.
  simpl field. unfold strict_eq_str, truthy_opt. simpl get.
  rewrite Hmo, Hto, Hco.
  assert (m = Some (JStr "text") ∨ m = Some (JStr "command")) as Hmode.
  { simpl in Hm. destruct (assoc "mode" fields) as [[| | |x| |]|]; try done.
    destruct (String.eqb x "text") eqn:E1.
    - apply String.eqb_eq in E1 as ->. left. by inversion Hm.
    - destruct (String.eqb x "command") eqn:E2; [|done].
      apply String.eqb_eq in E2 as ->. right. by inversion Hm. }
  destruct Hmode as [-> | ->]; simpl.
  - destruct t as [tv|]; [|done].
    destruct (truthy tv) eqn:Htv; [|done]. intros [= <-]. left. split; [done|].
    simpl in Ht. destruct (assoc "text" fields) as [[| | |x| |]|]; try done.
    inversion Ht; subst tv. exists x. split; [done|].
    simpl in Htv. intros ->. done.
  - destruct c as [cv|]; [|done].
    destruct (truthy cv) eqn:Hcv; [|done]. intros [= <-]. right. split; [done|].
    simpl in Hc. destruct (assoc "command" fields) as [[| | | |items|]|]; try done.
    destruct (parse_items safeParse ZString items) as [argv|] eqn:Hi; [|done].
    inversion Hc; subst cv. exists argv. split; [done|].
    by eapply parse_items_strings.
Qed.

(** C9 as stated fails: a reply block with mode "text" that sets both [text]
    and [command] is accepted, and both fields survive validation. *)
Lemma ReplySchema_accepts_text_and_command :
  safeParse ReplySchema (Some reply_text_and_command)
    = Success (Some reply_text_and_command) ∧
  populated "text" reply_text_and_command = true ∧
  populated "command" reply_text_and_command = true ∧
  exactly_one_matching_mode reply_text_and_command = false.
Proof. repeat split; vm_compute; reflexivity. Qed.

(** The command-mode reply block of the tests is accepted and has its
    [command]. *)
Lemma ReplySchema_mode_field_witness :
  (get "mode" reply_echo = Some (JStr "text") ∧
     ∃ s, get "text" reply_echo = Some (JStr s) ∧ s ≠ "") ∨
  (get "mode" reply_echo = Some (JStr "command") ∧
     ∃ argv, get "command" reply_echo = Some (JArr argv) ∧ Forall is_string argv).
Proof. exact (ReplySchema_mode_field reply_echo reply_echo eq_refl). Defined.

Section LoadConfig.

Variable CONFIG_PATH : string.
Variable JSON5_parse : string → res json.

Lemma WarelaySchema_rejects_non_object (parsed : json) :
  (∀ fields, parsed ≠ JObj fields) →
  safeParse WarelaySchema (Some parsed) = Failure.
Proof. intros H. destruct parsed; try done. by destruct (H fields). Qed.

(** C10: [loadConfig] returns on every state of the file system. It returns
    the empty configuration when the file is missing, unreadable, not JSON5,
    not an object, or rejected by the schema; a file the schema accepts yields
    the validated data, so a configuration other than the empty one comes from
    a schema-valid file only. *)
Theorem loadConfig_total (fs : gmap string file) :
  ∃ cfg, loadConfig CONFIG_PATH JSON5_parse fs = Ok cfg ∧
    (fs !! CONFIG_PATH = None → cfg = empty_config) ∧
    (fs !! CONFIG_PATH = Some Unreadable → cfg = empty_config) ∧
    (∀ raw e, fs !! CONFIG_PATH = Some (Readable raw) →
              JSON5_parse raw = Throw e → cfg = empty_config) ∧
    (∀ raw parsed, fs !! CONFIG_PATH = Some (Readable raw) →
                   JSON5_parse raw = Ok parsed →
                   (∀ fields, parsed ≠ JObj fields) → cfg = empty_config) ∧
    (∀ raw parsed, fs !! CONFIG_PATH = Some (Readable raw) →
                   JSON5_parse raw = Ok parsed →
                   safeParse WarelaySchema (Some parsed) = Failure →
                   cfg = empty_config) ∧
    (∀ raw parsed data, fs !! CONFIG_PATH = Some (Readable raw) →
                   JSON5_parse raw = Ok parsed →
                   safeParse WarelaySchema (Some parsed) = Success data →
                   cfg = data) ∧
    (cfg ≠ empty_config →
     ∃ raw parsed, fs !! CONFIG_PATH = Some (Readable raw) ∧
                   JSON5_parse raw = Ok parsed ∧
                   safeParse WarelaySchema (Some parsed) = Success cfg).
Proof.
  unfold loadConfig, existsSync, readFileSync.
  pose proof WarelaySchema_rejects_non_object as Hrej. revert Hrej.
  generalize (safeParse WarelaySchema). intros validate Hrej.
  destruct (fs !! CONFIG_PATH) as [[|raw]|] eqn:Hfs; simpl.
  - exists empty_config. repeat split; congruence.
  - destruct (JSON5_parse raw) as [parsed|e] eqn:Hp; simpl.
    + destruct (negb (typeof_object parsed) || is_null parsed) eqn:Hty.
      * assert (∀ fields, parsed ≠ JObj fields) as Hno
          by (intros fields ->; discriminate Hty).
        specialize (Hrej parsed Hno).
        exists empty_config. repeat split; congruence.
      * destruct (validate (Some parsed)) as [data|] eqn:Hs.
        -- exists data. repeat split; try congruence.
           ++ intros raw' parsed' [= <-]. rewrite Hp. intros [= <-] Hno.
              rewrite (Hrej _ Hno) in Hs. discriminate Hs.
           ++ intros _. eauto.
        -- exists empty_config. repeat split; congruence.
    + exists empty_config. repeat split; congruence.
  - exists empty_config. repeat split; congruence.
Qed.

End LoadConfig.

End ConfigFacts.

(** The configuration of the command-mode tests, on disk and well-formed, is
    what [loadConfig] returns. *)
Lemma loadConfig_total_witness :
  ∃ cfg,
    Config.loadConfig "/home/u/.warelay/warelay.json"
      (λ raw, if String.eqb raw "cfg" then Ok Config.config_echo
              else Throw "SyntaxError")
      {[ "/home/u/.warelay/warelay.json" := Readable "cfg" ]} = Ok cfg ∧
    cfg = Some Config.config_echo.
Proof.
  destruct (loadConfig_total "/home/u/.warelay/warelay.json"
              (λ raw, if String.eqb raw "cfg" then Ok Config.config_echo
                      else Throw "SyntaxError")
              {[ "/home/u/.warelay/warelay.json" := Readable "cfg" ]})
    as (cfg & Hcfg & _ & _ & _ & _ & _ & Hvalid & _).
  exists cfg. split; [exact Hcfg|].
  apply (Hvalid "cfg" Config.config_echo).
  - apply lookup_singleton_eq.
  - reflexivity.
  - reflexivity.
Defined.

(** ** The timeout reply *)

Section TimeoutFacts.

Import Text Reply.

Lemma str_app (l1 l2 : list ascii) : str (l1 ++ l2) = str l1 +:+ str l2.
Proof. induction l1 as [|c l1 IH]; simpl; [done | by rewrite IH]. Qed.



Lemma str_app_empty (s : string) : s +:+ "" = s.
Proof.
  induction s as [|c s IH]; [done|].
  change (String c s +:+ "") with (String c (s +:+ "")). by rewrite IH.
Qed.






Example timeout_test_partial_snippet :
  let t := text (timeoutReply (Some 42%N) (Some (repeat_x 900))) in
  str_includes t "Command timed out after 42s" = true ∧
  str_includes t "Partial output before timeout" = true ∧
  str_includes t (repeat_x 800 +:+ "...") = true ∧
  str_includes t (repeat_x 900) = false.
Proof. repeat split; vm_compute; reflexivity. Qed.

Example timeout_test_no_partial :
  text (timeoutReply (Some 5%N) (Some "")) =
    "Command timed out after 5s. Try a shorter prompt or split the request.".
Proof. reflexivity. Qed.

End TimeoutFacts.

(** ** The command queue *)

Section QueueFacts.

Import CommandQueue.

(** What the flag means: while it is clear nothing executes and nothing
    waits; while it is set exactly one command executes. The started tasks are
    the settled ones followed by the executing one. *)
Record queue_inv (s : state) : Prop := {
  inv_idle : running s = false → executing s = [] ∧ pending s = [];
  inv_busy : running s = true → length (executing s) = 1;
  inv_history : (settled s).*1 ++ executing s = started s;
}.

Lemma queue_inv_initial : queue_inv initial.
Proof. by split. Qed.

Lemma queue_inv_step (s : state) (e : event) :
  queue_inv s → queue_inv (step s e).
Proof.
  intros [Hidle Hbusy Hhist]. destruct s as [p r ex st se]. simpl in *.
  destruct e as [t|o]; simpl.
  - unfold enqueue, drain; simpl. destruct r; simpl.
    + split; simpl; auto. done.
    + destruct (Hidle eq_refl) as [-> ->]. simpl.
      split; simpl; [done|done|]. rewrite app_nil_r in Hhist.
      by rewrite Hhist.
  - unfold finish; simpl. destruct ex as [|t others]; [by split|].
    destruct r; [|by destruct (Hidle eq_refl)].
    specialize (Hbusy eq_refl). destruct others; [|done].
    unfold drain; simpl. destruct p as [|t' p']; split; simpl; try done.
    + by rewrite fmap_app, app_nil_r.
    + rewrite fmap_app. simpl. by rewrite <- Hhist.
Qed.

Lemma run_snoc (evs : list event) (e : event) (s : state) :
  run (evs ++ [e]) s = step (run evs s) e.
Proof. unfold run. by rewrite foldl_app. Qed.

Lemma arrivals_snoc (evs : list event) (e : event) :
  arrivals (evs ++ [e]) =
    arrivals evs ++ match e with Enqueue t => [t] | Finish _ => [] end.
Proof.
  induction evs as [|[t|o] evs IH]; simpl.
  - destruct e; done.
  - by rewrite IH.
  - done.
Qed.

Lemma queue_inv_run (evs : list event) : queue_inv (run evs initial).
Proof.
  induction evs as [|e evs IH] using rev_ind; [apply queue_inv_initial|].
  rewrite run_snoc. by apply queue_inv_step.
Qed.

(** Tasks start in the order they arrived. *)
Lemma queue_fifo (evs : list event) :
  started (run evs initial) ++ pending (run evs initial) = arrivals evs.
Proof.
  induction evs as [|e evs IH] using rev_ind; [done|].
  rewrite run_snoc, arrivals_snoc, <- IH.
  pose proof (queue_inv_run evs) as [Hidle Hbusy _].
  destruct (run evs initial) as [p r ex st se]. simpl in *.
  destruct e as [t|o]; simpl.
  - unfold enqueue, drain; simpl. destruct r; simpl.
    + by rewrite app_assoc.
    + destruct (Hidle eq_refl) as [_ ->]. simpl. by rewrite !app_nil_r.
  - unfold finish; simpl. rewrite app_nil_r.
    destruct ex as [|t others]; [done|].
    unfold drain; simpl. destruct p as [|t' p']; simpl; [done|].
    by rewrite <- app_assoc.
Qed.

(** Once every command that is executing or waiting has ended, whatever its
    outcome, the queue is empty and every task is settled, in order. *)
Lemma queue_drains (os : list outcome) (s : state) :
  queue_inv s →
  length os = length (pending s) + length (executing s) →
  let s' := run (Finish <$> os) s in
  pending s' = [] ∧ executing s' = [] ∧ running s' = false ∧
  (settled s').*1 = started s ++ pending s.
Proof.
  revert s. induction os as [|o os IH]; intros s Hinv Hlen; simpl.
  - destruct Hinv as [Hidle Hbusy Hhist].
    destruct s as [p r ex st se]; simpl in *.
    destruct p; [|done]. destruct ex; [|done].
    destruct r; [by specialize (Hbusy eq_refl)|].
    by rewrite !app_nil_r in *.
  - pose proof (queue_inv_step s (Finish o) Hinv) as Hinv'.
    destruct Hinv as [Hidle Hbusy Hhist].
    destruct s as [p r ex st se]; simpl in *.
    destruct ex as [|t others].
    { destruct r; [by specialize (Hbusy eq_refl)|].
      destruct (Hidle eq_refl) as [_ ->]. done. }
    destruct r; [|by destruct (Hidle eq_refl)].
    specialize (Hbusy eq_refl). destruct others; [|done].
    unfold finish in *; simpl in *. unfold drain in *; simpl in *.
    destruct p as [|t' p']; simpl in *.
    + destruct (IH _ Hinv') as (? & ? & ? & Hs); [simpl; lia|].
      simpl in Hs. by rewrite app_nil_r in *.
    + destruct (IH _ Hinv') as (? & ? & ? & Hs); [simpl; lia|].
      simpl in Hs. by rewrite <- app_assoc in Hs.
Qed.

(** C2: along every trace of requests and command endings, at most one
    command executes in every state; tasks start in arrival order; a command's
    ending settles its own task with its outcome and leaves the waiting tasks
    and the next admission the same whatever the outcome; and once the commands
    that execute or wait have ended, with any outcomes, every submitted task is
    settled, in arrival order. *)
Theorem queue_serializes (evs : list event) :
  let s := run evs initial in
  length (executing s) ≤ 1 ∧
  started s ++ pending s = arrivals evs ∧
  (settled s).*1 ++ executing s = started s ∧
  (∀ t o, executing s = [t] →
     settled (finish o s) = settled s ++ [(t, o)] ∧
     pending (finish o s) = pending (finish Resolved s) ∧
     executing (finish o s) = executing (finish Resolved s) ∧
     started (finish o s) = started (finish Resolved s)) ∧
  (∀ os, length os = length (pending s) + length (executing s) →
     let s' := run (Finish <$> os) s in
     pending s' = [] ∧ executing s' = [] ∧ (settled s').*1 = arrivals evs).
Proof.
  intros s. pose proof (queue_inv_run evs) as Hinv. fold s in Hinv.
  pose proof (queue_fifo evs) as Hfifo. fold s in Hfifo.
  repeat split.
  - destruct Hinv as [Hidle Hbusy _]. destruct (running s).
    + by rewrite Hbusy.
    + destruct (Hidle eq_refl) as [-> _]. simpl. lia.
  - done.
  - by destruct Hinv.
  - intros. unfold finish. rewrite H. unfold drain; simpl.
    by destruct (pending s).
  - unfold finish. rewrite H. unfold drain; simpl. by destruct (pending s).
  - unfold finish. rewrite H. unfold drain; simpl. by destruct (pending s).
  - unfold finish. rewrite H. unfold drain; simpl. by destruct (pending s).
  - by destruct (queue_drains os s Hinv H) as (? & _).
  - by destruct (queue_drains os s Hinv H) as (_ & ? & _).
  - destruct (queue_drains os s Hinv H) as (_ & _ & _ & Hs).
    by rewrite <- Hfifo.
Qed.

(** Two concurrent requests: the second waits for the first, the failure of
    the first does not keep the second from running, and both are settled. *)
Lemma queue_serializes_witness :
  let s := run [Enqueue 1; Enqueue 2] initial in
  let s' := run (Finish <$> [Rejected; Resolved]) s in
  pending s' = [] ∧ executing s' = [] ∧ (settled s').*1 = [1; 2].
Proof.
  exact (proj2 (proj2 (proj2 (proj2 (queue_serializes [Enqueue 1; Enqueue 2]))))
           [Rejected; Resolved] eq_refl).
Defined.

End QueueFacts.

(** ** More on the session store file *)

Section SessionStoreFile.

Import Sessions.

Variable normalizeE164 : string → string.
Variable JSON5_parse : string → res json.

(** [loadSessionStore] returns on every state of the file system, and
    whatever it returns other than the empty mapping is what [JSON5.parse]
    made of the readable file at [storePath], an object or an array. *)
Theorem loadSessionStore_result (fs : gmap string file) (storePath : string) :
  ∃ store,
    loadSessionStore JSON5_parse fs storePath = Ok store ∧
    (store ≠ JObj [] →
     ∃ raw, fs !! storePath = Some (Readable raw) ∧
            JSON5_parse raw = Ok store ∧
            ((∃ fields, store = JObj fields) ∨ (∃ items, store = JArr items))).
Proof.
  unfold loadSessionStore, readFileSync.
  destruct (fs !! storePath) as [[|raw]|]; simpl; [by eexists | | by eexists].
  destruct (JSON5_parse raw) as [parsed|e] eqn:Hp; simpl; [|by eexists].
  destruct parsed as [| b | n | s | items | fields]; simpl;
    try (by eexists).
  - destruct b; simpl; by eexists.
  - destruct (num_truthy n); simpl; by eexists.
  - destruct (negb (String.eqb s "")); simpl; by eexists.
  - eexists. split; [done|]. intros _. exists raw. eauto.
  - eexists. split; [done|]. intros _. exists raw. eauto.
Qed.

(** The session key is never the empty string, whatever [normalizeE164]
    returns. *)
Theorem deriveSessionKey_not_empty (scope : SessionScope) (ctx : MsgContext) :
  deriveSessionKey normalizeE164 scope ctx ≠ "".
Proof.
  destruct scope; simpl; [|done].
  unfold str_truthy.
  destruct (From ctx) as [f|]; simpl; [|done].
  destruct (String.eqb f ""); simpl; [done|].
  destruct (String.eqb (normalizeE164 f) "") eqn:E; simpl; [done|].
  by apply String.eqb_neq in E.
Qed.

(** Under the global scope every sender has the same key; under the
    per-sender scope two senders share a key only if their normalised
    addresses are equal or both fall back to "unknown". *)
Theorem deriveSessionKey_shared (ctx1 ctx2 : MsgContext) (f1 f2 : string) :
  From ctx1 = Some f1 → From ctx2 = Some f2 →
  f1 ≠ "" → f2 ≠ "" →
  normalizeE164 f1 ≠ "" → normalizeE164 f2 ≠ "" →
  deriveSessionKey normalizeE164 Global ctx1
    = deriveSessionKey normalizeE164 Global ctx2 ∧
  (deriveSessionKey normalizeE164 PerSender ctx1
     = deriveSessionKey normalizeE164 PerSender ctx2
   ↔ normalizeE164 f1 = normalizeE164 f2).
Proof.
  intros H1 H2 Hf1 Hf2 Hn1 Hn2. split; [done|].
  unfold deriveSessionKey, str_truthy. rewrite H1, H2.
  apply String.eqb_neq in Hf1, Hf2, Hn1, Hn2.
  by rewrite Hf1, Hf2; simpl; rewrite Hn1, Hn2.
Qed.

End SessionStoreFile.

(** A store file with one session. *)
Lemma loadSessionStore_result_witness :
  ∃ store,
    Sessions.loadSessionStore Sessions.parse_1555
      {[ "/tmp/sessions.json" := Readable "store-1555" ]} "/tmp/sessions.json"
      = Ok store ∧
    (store ≠ JObj [] →
     ∃ raw, ({[ "/tmp/sessions.json" := Readable "store-1555" ]}
               : gmap string file) !! "/tmp/sessions.json"
              = Some (Readable raw) ∧
            Sessions.parse_1555 raw = Ok store ∧
            ((∃ fields, store = JObj fields) ∨ (∃ items, store = JArr items))).
Proof.
  exact (loadSessionStore_result Sessions.parse_1555
           {[ "/tmp/sessions.json" := Readable "store-1555" ]}
           "/tmp/sessions.json").
Defined.

(** Two senders whose addresses differ have different keys. *)
Lemma deriveSessionKey_shared_witness :
  Sessions.deriveSessionKey (λ s, s) Sessions.PerSender Sessions.ctx_1555
    = Sessions.deriveSessionKey (λ s, s) Sessions.PerSender Sessions.ctx_1777
  ↔ "+1555" = "whatsapp:+1777".
Proof.
  refine (proj2 (deriveSessionKey_shared (λ s, s) Sessions.ctx_1555
                   Sessions.ctx_1777 "+1555" "whatsapp:+1777" eq_refl eq_refl
                   _ _ _ _));
    discriminate.
Defined.

(** ** What validation does to a value *)

Section ValidationFacts.

Import Zod.

Lemma safeParse_ZObject shape fields :
  safeParse (ZObject shape) (Some (JObj fields)) =
    match parse_shape safeParse fields shape with
    | Some out => Success (Some (JObj out))
    | None => Failure
    end.
Proof. reflexivity. Qed.

Lemma safeParse_ZOptional_Some inner v :
  safeParse (ZOptional inner) (Some v) = safeParse inner (Some v).
Proof. reflexivity. Qed.

Lemma safeParse_ZRefine inner check input :
  safeParse (ZRefine inner check) input =
    match safeParse inner input with
    | Success d => if check d then Success d else Failure
    | Failure => Failure
    end.
Proof. reflexivity. Qed.

(** A union of literals returns its input. *)
Lemma first_match_plain (opts : list schema) (v d : option json) :
  forallb is_plain_option opts = true →
  first_match safeParse v opts = Success d → d = v.
Proof.
  induction opts as [|o rest IH]; simpl; [done|].
  intros [Ho Hrest]%andb_true_iff.
  destruct o; try done; simpl.
  - destruct v as [[| | |x| |]|]; try (by apply IH).
    destruct (String.eqb x v0); [by intros [= <-] | by apply IH].
  - destruct v; [by apply IH | by intros [= <-]].
Qed.

(** One failing field fails the object. *)
Lemma parse_shape_fails parse fields sh k f :
  (k, f) ∈ sh →
  parse f (assoc k fields) = Failure →
  parse_shape parse fields sh = None.
Proof.
  induction sh as [|[k' f'] rest IH]; intros Hin Hf.
  - by apply elem_of_nil in Hin.
  - simpl. apply elem_of_cons in Hin as [[= <- <-] | Hin].
    + by rewrite Hf.
    + rewrite (IH Hin Hf). by destruct (parse f' (assoc k' fields)) as [[?|]|].
Qed.

(** A key of the output was produced by a field of the shape. *)
Lemma parse_shape_out parse fields sh out k d :
  parse_shape parse fields sh = Some out →
  assoc k out = Some d →
  ∃ f, (k, f) ∈ sh ∧ parse f (assoc k fields) = Success (Some d).
Proof.
  revert out. induction sh as [|[k' f'] rest IH]; intros out Hp Hk; simpl in Hp.
  - by inversion Hp; subst.
  - destruct (parse f' (assoc k' fields)) as [[v|]|] eqn:Hf; [| |done];
      destruct (parse_shape parse fields rest) as [out'|]; try done;
      inversion Hp; subst.
    + simpl in Hk. destruct (String.eqb k k') eqn:E.
      * apply String.eqb_eq in E as ->. inversion Hk; subst.
        exists f'. split; [left | done].
      * destruct (IH _ eq_refl Hk) as (f & Hin & Hf'). exists f.
        split; [by right | done].
    + destruct (IH _ eq_refl Hk) as (f & Hin & Hf'). exists f.
      split; [by right | done].
Qed.

(** No schema makes a value out of [undefined]. *)
Lemma safeParse_undefined (s : schema) (d : json) :
  safeParse s None ≠ Success (Some d).
Proof.
  revert d.
  induction s as [|checks| |lit| |options IH|element IH|shape IH|inner IH|inner check IH]
    using schema_induction; intros d; try done.
  - simpl. induction IH as [|o rest Ho _ IHrest]; [done|]. simpl.
    destruct (safeParse o None) as [[x|]|] eqn:E; [|done|done].
    by destruct (Ho x).
  - rewrite safeParse_ZRefine.
    destruct (safeParse inner None) as [[x|]|] eqn:E; [by destruct (IH x)| |done].
    by destruct (check None).
Qed.

(** Validation changes no value: the data is the input with keys left out. *)
Lemma safeParse_stripped (s : schema) (v d : json) :
  safeParse s (Some v) = Success (Some d) → stripped d v.
Proof.
  revert v d.
  induction s as [|checks| |lit| |options IH|element IH|shape IH|inner IH|inner check IH]
    using schema_induction; intros v d.
  - destruct v; try done. intros [= <-]. constructor.
  - simpl. destruct v as [| |n| | |]; try done.
    destruct (is_finite n && forallb (run_check n) checks); [|done].
    intros [= <-]. constructor.
  - destruct v; try done. intros [= <-]. constructor.
  - simpl. destruct v as [| | |x| |]; try done.
    destruct (String.eqb x lit); [|done]. intros [= <-]. constructor.
  - done.
  - simpl. induction IH as [|o rest Ho _ IHrest]; [done|]. simpl.
    destruct (safeParse o (Some v)) as [[x|]|] eqn:E.
    + intros [= <-]. by apply Ho.
    + done.
    + done.
  - simpl. destruct v as [| | | |items|]; try done.
    destruct (parse_items safeParse element items) as [out|] eqn:Hi; [|done].
    intros [= <-]. constructor. revert out Hi.
    induction items as [|x rest IHitems]; intros out; simpl.
    + intros [= <-]. constructor.
    + destruct (safeParse element (Some x)) as [[y|]|] eqn:E; try done.
      destruct (parse_items safeParse element rest) as [ys|]; [|done].
      intros [= <-]. constructor; [by apply IH | by apply IHitems].
  - destruct v as [| | | | |fields]; try done. rewrite safeParse_ZObject.
    destruct (parse_shape safeParse fields shape) as [out|] eqn:Hs; [|done].
    intros [= <-]. constructor. intros k d' Hk.
    destruct (parse_shape_out _ _ _ _ _ _ Hs Hk) as (f & Hin & Hf).
    destruct (assoc k fields) as [x|] eqn:Hx;
      [|by destruct (safeParse_undefined f d')].
    exists x. split; [done|].
    rewrite List.Forall_forall in IH.
    apply (IH (k, f)); [by apply list_elem_of_In | done].
  - rewrite safeParse_ZOptional_Some. apply IH.
  - rewrite safeParse_ZRefine.
    destruct (safeParse inner (Some v)) as [d'|] eqn:E; [|done].
    destruct (check d'); [|done]. intros [= ->]. by apply IH.
Qed.

(** Validating validated data returns it as it is. *)
Lemma safeParse_idempotent (s : schema) :
  plain_schema s = true →
  ∀ v d, safeParse s v = Success d → safeParse s d = Success d.
Proof.
  induction s as [|checks| |lit| |options IH|element IH|shape IH|inner IH|inner check IH]
    using schema_induction; intros Hplain v d.
  - destruct v as [[]|]; try done. by intros [= <-].
  - simpl. destruct v as [[| |n| | |]|]; try done.
    destruct (is_finite n && forallb (run_check n) checks) eqn:E; [|done].
    intros [= <-]. simpl. by rewrite E.
  - destruct v as [[]|]; try done. by intros [= <-].
  - simpl. destruct v as [[| | |x| |]|]; try done.
    destruct (String.eqb x lit) eqn:E; [|done]. intros [= <-]. simpl.
    by rewrite E.
  - destruct v; try done. by intros [= <-].
  - simpl in *. intros Hm.
    pose proof (first_match_plain _ _ _ Hplain Hm) as ->. exact Hm.
  - simpl in *. destruct v as [[| | | |items|]|]; try done.
    destruct (parse_items safeParse element items) as [out|] eqn:Hi; [|done].
    intros [= <-]. simpl.
    assert (parse_items safeParse element out = Some out) as ->; [|done].
    revert out Hi. induction items as [|x rest IHitems]; intros out; simpl.
    + by intros [= <-].
    + destruct (safeParse element (Some x)) as [[y|]|] eqn:E; try done.
      destruct (parse_items safeParse element rest) as [ys|]; [|done].
      intros [= <-]. simpl. rewrite (IH Hplain _ _ E).
      by rewrite (IHitems _ eq_refl).
  - destruct v as [[| | | | |fields]|]; try done. rewrite safeParse_ZObject.
    destruct (parse_shape safeParse fields shape) as [out|] eqn:Hs; [|done].
    intros [= <-]. rewrite safeParse_ZObject.
    simpl in Hplain. apply andb_true_iff in Hplain as [Hnd Hall].
    apply bool_decide_eq_true in Hnd.
    assert (∀ k f, (k, f) ∈ shape →
              safeParse f (assoc k fields) = Success (assoc k out) ∧
              safeParse f (assoc k out) = Success (assoc k out)) as Hfield.
    { intros k f Hin.
      pose proof (parse_shape_lookup safeParse fields shape out k f Hs Hnd Hin)
        as Hf.
      split; [done|].
      rewrite List.Forall_forall in IH.
      apply (IH (k, f)) with (v := assoc k fields); [by apply list_elem_of_In | | done].
      clear -Hall Hin. induction shape as [|kf rest IHs]; [by apply elem_of_nil in Hin|].
      apply andb_true_iff in Hall as [Hkf Hrest].
      apply elem_of_cons in Hin as [<- | Hin]; [done | by apply IHs]. }
    assert (∀ sh out', (∀ k f, (k, f) ∈ sh → (k, f) ∈ shape) →
              parse_shape safeParse fields sh = Some out' →
              parse_shape safeParse out sh = Some out') as Hsub.
    { clear -Hfield. induction sh as [|[k f] rest IHsh]; intros out' Hincl; [done|].
      simpl. destruct (Hfield k f) as [H1 H2]; [apply Hincl; left|].
      rewrite H1, H2.
      destruct (assoc k out) as [x|];
        destruct (parse_shape safeParse fields rest) as [o|] eqn:Hr; try done.
      - rewrite (IHsh o); [done | | done]. intros ? ? ?. apply Hincl. by right.
      - rewrite (IHsh o); [done | | done]. intros ? ? ?. apply Hincl. by right. }
    by rewrite (Hsub shape out).
  - simpl in *. destruct v as [x|]; [|by intros [= <-]].
    intros Hi. destruct d as [y|]; [|done]. by apply (IH Hplain (Some x)).
  - simpl in Hplain. rewrite safeParse_ZRefine.
    destruct (safeParse inner v) as [d'|] eqn:E; [|done].
    destruct (check d') eqn:Hc; [|done]. intros [= ->].
    rewrite safeParse_ZRefine, (IH Hplain _ _ E). by rewrite Hc.
Qed.

End ValidationFacts.

(** ** What [loadConfig] hands to its callers *)

Section LoadConfigFacts.

Import Zod Config.

Variable CONFIG_PATH : string.
Variable JSON5_parse : string → res json.

Lemma WarelaySchema_plain : plain_schema WarelaySchema = true.
Proof. vm_compute. reflexivity. Qed.

Lemma WarelaySchema_empty :
  safeParse WarelaySchema empty_config = Success empty_config.
Proof. vm_compute. reflexivity. Qed.

Lemma loadConfig_returns_valid (fs : gmap string file) (cfg : option json) :
  loadConfig CONFIG_PATH JSON5_parse fs = Ok cfg →
  safeParse WarelaySchema cfg = Success cfg.
Proof.
  unfold loadConfig, existsSync, readFileSync.
  pose proof (safeParse_idempotent WarelaySchema WarelaySchema_plain) as Hid.
  pose proof WarelaySchema_empty as Hempty. revert Hid Hempty.
  generalize (safeParse WarelaySchema). intros validate Hid Hempty.
  destruct (fs !! CONFIG_PATH) as [[|raw]|]; simpl; try (by intros [= <-]).
  destruct (JSON5_parse raw) as [parsed|e]; simpl; [|by intros [= <-]].
  destruct (negb (typeof_object parsed) || is_null parsed); [by intros [= <-]|].
  destruct (validate (Some parsed)) as [data|] eqn:Hv; [|by intros [= <-]].
  intros [= <-]. by apply (Hid (Some parsed)).
Qed.

Lemma loadConfig_returns (fs : gmap string file) :
  ∃ cfg, loadConfig CONFIG_PATH JSON5_parse fs = Ok cfg.
Proof.
  unfold loadConfig, existsSync, readFileSync.
  generalize (safeParse WarelaySchema). intros validate.
  destruct (fs !! CONFIG_PATH) as [[|raw]|]; simpl; try (by eexists).
  destruct (JSON5_parse raw) as [parsed|e]; simpl; [|by eexists].
  destruct (negb (typeof_object parsed) || is_null parsed); [by eexists|].
  destruct (validate (Some parsed)); by eexists.
Qed.

(** Whatever [loadConfig] returns passes the schema again, unchanged: a caller
    never holds a configuration the validator would reject. *)
Theorem loadConfig_valid (fs : gmap string file) :
  ∃ cfg, loadConfig CONFIG_PATH JSON5_parse fs = Ok cfg ∧
         safeParse WarelaySchema cfg = Success cfg.
Proof.
  destruct (loadConfig_returns fs) as [cfg Hcfg]. exists cfg.
  split; [done | by apply (loadConfig_returns_valid fs)].
Qed.

(** The reply block of a loaded configuration is a valid reply block as it
    stands: it passes [ReplySchema] unchanged. *)
Theorem loadConfig_reply_valid
    (fs : gmap string file) (cfg inbound reply : json) :
  loadConfig CONFIG_PATH JSON5_parse fs = Ok (Some cfg) →
  get "inbound" cfg = Some inbound →
  get "reply" inbound = Some reply →
  safeParse ReplySchema (Some reply) = Success (Some reply).
Proof.
  intros Hload Hinb Hreply.
  pose proof (loadConfig_returns_valid fs _ Hload) as Hvalid. clear Hload.
  unfold WarelaySchema in Hvalid.
  apply safeParse_object_inv in Hvalid
    as (fields & out & -> & [= <-] & Hshape).
  simpl in Hinb.
  match type of Hshape with
  | parse_shape _ _ ?sh = _ => set (shape := sh) in Hshape
  end.
  assert (NoDup shape.*1) as Hnd by (apply (bool_decide_unpack _); by vm_compute).
  eassert (("inbound", _) ∈ shape) as Hin.
  { subst shape. apply list_elem_of_further, list_elem_of_here. }
  pose proof (parse_shape_lookup safeParse fields shape fields "inbound" _
                Hshape Hnd Hin) as Hi.
  rewrite Hinb in Hi. clear Hin Hnd Hshape. clearbody shape.
  rewrite safeParse_ZOptional_Some in Hi.
  apply safeParse_object_inv in Hi as (ifields & iout & -> & [= <-] & Hishape).
  simpl in Hreply.
  match type of Hishape with
  | parse_shape _ _ ?sh = _ => set (ishape := sh) in Hishape
  end.
  pose proof (parse_shape_lookup safeParse ifields ishape ifields "reply"
                (ZOptional ReplySchema) Hishape
                ltac:(apply (bool_decide_unpack _); by vm_compute)
                ltac:(subst ishape; do 2 apply list_elem_of_further;
                      apply list_elem_of_here)) as Hr.
  rewrite Hreply in Hr. by rewrite safeParse_ZOptional_Some in Hr.
Qed.

(** [loadConfig] makes nothing up: a configuration other than the empty one
    is the parsed file with keys left out, every value as the file has it, and
    at the top only the keys "logging" and "inbound". *)
Theorem loadConfig_stripped (fs : gmap string file) :
  ∃ cfg, loadConfig CONFIG_PATH JSON5_parse fs = Ok cfg ∧
    (cfg = empty_config ∨
     ∃ raw parsed d,
       fs !! CONFIG_PATH = Some (Readable raw) ∧
       JSON5_parse raw = Ok parsed ∧
       cfg = Some d ∧ stripped d parsed ∧
       ∀ k, k ≠ "logging" → k ≠ "inbound" → get k d = None).
Proof.
  unfold loadConfig, existsSync, readFileSync.
  assert (∀ v d, safeParse WarelaySchema (Some v) = Success d →
            ∃ d', d = Some d' ∧ stripped d' v ∧
                  ∀ k, k ≠ "logging" → k ≠ "inbound" → get k d' = None)
    as Hval.
  { intros v d Hs.
    destruct (safeParse_object_inv _ _ _ Hs) as (fields & out & -> & -> & Hp).
    eexists. split; [done|]. split; [by apply (safeParse_stripped _ _ _ Hs)|].
    intros k Hl Hi. simpl.
    apply (parse_shape_stripped _ _ _ _ _ Hp). simpl.
    rewrite !not_elem_of_cons. repeat split; try done. apply not_elem_of_nil. }
  revert Hval. generalize (safeParse WarelaySchema). intros validate Hval.
  destruct (fs !! CONFIG_PATH) as [[|raw]|]; simpl;
    [eexists; split; [done | by left] | | eexists; split; [done | by left]].
  destruct (JSON5_parse raw) as [parsed|e] eqn:Hp; simpl;
    [|eexists; split; [done | by left]].
  destruct (negb (typeof_object parsed) || is_null parsed);
    [eexists; split; [done | by left]|].
  destruct (validate (Some parsed)) as [data|] eqn:Hv;
    [|eexists; split; [done | by left]].
  exists data. split; [done|]. right.
  destruct (Hval _ _ Hv) as (d' & -> & Hst & Hkeys).
  exists raw, parsed, d'. eauto.
Qed.

(** One invalid reply block discards the whole file: [loadConfig] returns the
    empty configuration, not the valid remainder. *)
Theorem loadConfig_rejects_invalid_reply
    (fs : gmap string file) (raw : string)
    (fields ifields : list (string * json)) (reply : json) :
  fs !! CONFIG_PATH = Some (Readable raw) →
  JSON5_parse raw = Ok (JObj fields) →
  assoc "inbound" fields = Some (JObj ifields) →
  assoc "reply" ifields = Some reply →
  safeParse ReplySchema (Some reply) = Failure →
  loadConfig CONFIG_PATH JSON5_parse fs = Ok empty_config.
Proof.
  intros Hfs Hp Hinb Hreply Hbad.
  assert (safeParse WarelaySchema (Some (JObj fields)) = Failure) as Hrej.
  { unfold WarelaySchema. rewrite safeParse_ZObject.
    match goal with
    | |- context [parse_shape _ _ ?sh] => set (shape := sh)
    end.
    assert (parse_shape safeParse fields shape = None) as ->; [|done].
    eapply parse_shape_fails;
      [subst shape; apply list_elem_of_further, list_elem_of_here|].
    rewrite Hinb, safeParse_ZOptional_Some, safeParse_ZObject.
    match goal with
    | |- context [parse_shape _ _ ?sh] => set (ishape := sh)
    end.
    assert (parse_shape safeParse ifields ishape = None) as ->; [|done].
    eapply parse_shape_fails;
      [subst ishape; do 2 apply list_elem_of_further; apply list_elem_of_here|].
    by rewrite Hreply, safeParse_ZOptional_Some. }
  unfold loadConfig, existsSync, readFileSync.
  revert Hrej. generalize (safeParse WarelaySchema). intros validate Hrej.
  rewrite Hfs. simpl. rewrite Hp. simpl. by rewrite Hrej.
Qed.

End LoadConfigFacts.

(** The command-mode configuration of the tests, loaded: its reply block is
    valid. *)
Lemma loadConfig_reply_valid_witness :
  Zod.safeParse Config.ReplySchema (Some Config.reply_echo)
  = Zod.Success (Some Config.reply_echo).
Proof.
  eapply loadConfig_reply_valid
    with (CONFIG_PATH := "/home/u/.warelay/warelay.json")
         (JSON5_parse := λ raw, if String.eqb raw "cfg"
                                then Ok Config.config_echo
                                else Throw "SyntaxError")
         (fs := {[ "/home/u/.warelay/warelay.json" := Readable "cfg" ]}).
  - reflexivity.
  - reflexivity.
  - reflexivity.
Defined.

(** A file with a fine logging block and a reply block without its text. *)
Lemma loadConfig_rejects_invalid_reply_witness :
  Config.loadConfig "/home/u/.warelay/warelay.json"
    (λ raw, if String.eqb raw "cfg" then Ok Config.config_bad_reply
            else Throw "SyntaxError")
    {[ "/home/u/.warelay/warelay.json" := Readable "cfg" ]}
  = Ok Config.empty_config.
Proof.
  eapply loadConfig_rejects_invalid_reply with (raw := "cfg").
  - apply lookup_singleton_eq.
  - reflexivity.
  - reflexivity.
  - reflexivity.
  - reflexivity.
Defined.

(** ** The types behind an accepted reply block *)

Section ReplyTyped.

Import Zod Config.

(** [.int().positive()] leaves the positive integers. *)
Lemma checks_int_positive (n : num) :
  is_finite n && forallb (run_check n) [Int; Positive] = true →
  ∃ q p, n = NFin q ∧ Qeq q (inject_Z (Z.pos p)).
Proof.
  destruct n as [q| |]; [|done|done].
  cbn [is_finite forallb run_check is_integer is_positive andb].
  rewrite andb_true_r.
  intros [[Hden _]%andb_true_iff Hpos%Z.ltb_lt]%andb_true_iff.
  pose proof (Qred_correct q) as Hred.
  destruct (Qred q) as [z den] eqn:Hr. simpl in Hden.
  destruct den; try done.
  assert (Qlt 0 q) as Hq by (unfold Qlt; simpl; lia).
  rewrite <- Hred in Hq. unfold Qlt in Hq. simpl in Hq.
  destruct z as [|p|p]; try lia.
  exists q, p. split; [done|]. by symmetry.
Qed.

(** [.positive()] leaves the numbers above zero. *)
Lemma checks_positive (n : num) :
  is_finite n && forallb (run_check n) [Positive] = true →
  (∃ q, n = NFin q ∧ Qlt 0 q) ∨ n = NInf false.
Proof.
  destruct n as [q| |]; [|done|done].
  cbn [is_finite forallb run_check is_positive andb].
  rewrite andb_true_r. intros Hpos%Z.ltb_lt. left. exists q.
  split; [done|]. unfold Qlt; simpl; lia.
Qed.

(** A union of literals accepts the strings it lists. *)
Lemma first_match_literal (opts : list schema) (x d : json) :
  first_match safeParse (Some x) opts = Success (Some d) →
  forallb is_plain_option opts = true →
  d = x ∧ ∃ lit, ZLiteral lit ∈ opts ∧ x = JStr lit.
Proof.
  induction opts as [|o rest IH]; simpl; [done|].
  intros Hm [Ho Hrest]%andb_true_iff.
  destruct o; try done; simpl in Hm.
  - destruct x as [| | |s| |]; try (destruct (IH Hm Hrest) as (? & lit & ? & ?);
      split; [done|]; exists lit; split; [by right | done]).
    destruct (String.eqb s v) eqn:E.
    + apply String.eqb_eq in E as ->. inversion Hm; subst.
      split; [done|]. exists v. split; [left | done].
    + destruct (IH Hm Hrest) as (? & lit & ? & ?).
      split; [done|]. exists lit. split; [by right | done].
  - destruct (IH Hm Hrest) as (? & lit & ? & ?).
    split; [done|]. exists lit. split; [by right | done].
Qed.

Lemma ReplySchema_fields (v d : json) :
  safeParse ReplySchema (Some v) = Success (Some d) →
  ∃ fields out, v = JObj fields ∧ d = JObj out ∧
    ∀ k f, (k, f) ∈ shape_of ReplySchema →
           safeParse f (assoc k fields) = Success (assoc k out).
Proof.
  unfold ReplySchema. rewrite safeParse_ZRefine. cbn [shape_of].
  match goal with
  | |- context [safeParse (ZObject ?sh) _] => set (shape := sh)
  end.
  destruct (safeParse (ZObject shape) (Some v)) as [d'|] eqn:Hobj; [|done].
  apply safeParse_object_inv in Hobj as (fields & out & -> & -> & Hshape).
  match goal with
  | |- context [if ?c then _ else _] => destruct c
  end; [|done].
  intros [= <-]. exists fields, out. split; [done|]. split; [done|].
  intros k f Hin. apply (parse_shape_lookup safeParse fields shape); [done| |done].
  apply (bool_decide_unpack _). by vm_compute.
Qed.

(** A reply block that passed validation has usable settings: a
    [timeoutSeconds] is a positive integer, a [mediaMaxMb] is a number above
    zero, a [claudeOutputFormat] is one of the three formats, and a session's
    [idleMinutes] and [scope] are a positive integer and one of the two
    scopes. *)
Theorem ReplySchema_typed (v d : json) :
  safeParse ReplySchema (Some v) = Success (Some d) →
  (∀ t, get "timeoutSeconds" d = Some t →
     ∃ q p, t = JNum (NFin q) ∧ Qeq q (inject_Z (Z.pos p))) ∧
  (∀ m, get "mediaMaxMb" d = Some m →
     (∃ q, m = JNum (NFin q) ∧ Qlt 0 q) ∨ m = JNum (NInf false)) ∧
  (∀ f, get "claudeOutputFormat" d = Some f →
     f = JStr "text" ∨ f = JStr "json" ∨ f = JStr "stream-json") ∧
  (∀ s, get "session" d = Some s →
     (∀ i, get "idleMinutes" s = Some i →
        ∃ q p, i = JNum (NFin q) ∧ Qeq q (inject_Z (Z.pos p))) ∧
     (∀ sc, get "scope" s = Some sc →
        sc = JStr "per-sender" ∨ sc = JStr "global")).
Proof.
  intros Hs. destruct (ReplySchema_fields v d Hs) as (fields & out & -> & -> & Hl).
  clear Hs. unfold ReplySchema in Hl. cbn [shape_of] in Hl. simpl get.
  repeat split.
  - intros t Ht.
    specialize (Hl "timeoutSeconds" (ZOptional (ZNumber [Int; Positive]))).
    rewrite Ht in Hl.
    destruct (assoc "timeoutSeconds" fields) as [x|];
      [|discriminate Hl;
        repeat first [apply list_elem_of_here | apply list_elem_of_further]].
    rewrite safeParse_ZOptional_Some in Hl.
    assert (safeParse (ZNumber [Int; Positive]) (Some x) = Success (Some t))
      as Hn
      by (apply Hl;
          repeat first [apply list_elem_of_here | apply list_elem_of_further]).
    clear Hl. cbn [safeParse] in Hn. destruct x as [| |n| | |]; try done.
    destruct (is_finite n && forallb (run_check n) [Int; Positive]) eqn:E;
      [|done].
    inversion Hn; subst. destruct (checks_int_positive n E) as (q & p & -> & Hq).
    eauto.
  - intros m Hm.
    specialize (Hl "mediaMaxMb" (ZOptional (ZNumber [Positive]))).
    rewrite Hm in Hl.
    destruct (assoc "mediaMaxMb" fields) as [x|];
      [|discriminate Hl;
        repeat first [apply list_elem_of_here | apply list_elem_of_further]].
    rewrite safeParse_ZOptional_Some in Hl.
    assert (safeParse (ZNumber [Positive]) (Some x) = Success (Some m)) as Hn
      by (apply Hl;
          repeat first [apply list_elem_of_here | apply list_elem_of_further]).
    clear Hl. cbn [safeParse] in Hn. destruct x as [| |n| | |]; try done.
    destruct (is_finite n && forallb (run_check n) [Positive]) eqn:E;
      [|done].
    inversion Hn; subst. destruct (checks_positive n E) as [(q & -> & Hq) | ->];
      eauto.
  - intros f Hf.
    specialize (Hl "claudeOutputFormat"
                  (ZOptional (ZUnion [ZLiteral "text"; ZLiteral "json";
                                      ZLiteral "stream-json"; ZUndefined]))).
    rewrite Hf in Hl.
    destruct (assoc "claudeOutputFormat" fields) as [x|];
      [|discriminate Hl;
        repeat first [apply list_elem_of_here | apply list_elem_of_further]].
    rewrite safeParse_ZOptional_Some in Hl.
    destruct (first_match_literal _ x f
                (Hl ltac:(repeat first [apply list_elem_of_here
                                       | apply list_elem_of_further]))
                eq_refl) as (-> & lit & Hin & ->).
    repeat (apply elem_of_cons in Hin as [Hin|Hin];
            [inversion Hin; subst; eauto|]).
    by apply elem_of_nil in Hin.
  - intros i Hi.
    match type of Hl with
    | context [("session", ?f)] => specialize (Hl "session" f)
    end.
    rewrite H in Hl.
    destruct (assoc "session" fields) as [x|];
      [|discriminate Hl;
        repeat first [apply list_elem_of_here | apply list_elem_of_further]].
    rewrite safeParse_ZOptional_Some in Hl.
    match type of Hl with
    | _ → safeParse (ZObject ?sh) _ = _ => set (sshape := sh) in Hl
    end.
    destruct (safeParse_object_inv sshape x (Some s)
                (Hl ltac:(repeat first [apply list_elem_of_here
                                       | apply list_elem_of_further])))
      as (sfields & sout & -> & [= ->] & Hshape).
    clear Hl. simpl in Hi.
    pose proof (parse_shape_lookup safeParse sfields sshape sout
                  "idleMinutes" (ZOptional (ZNumber [Int; Positive])) Hshape
                  ltac:(apply (bool_decide_unpack _); by vm_compute)
                  ltac:(subst sshape;
                        repeat first [apply list_elem_of_here
                                     | apply list_elem_of_further])) as Hn.
    rewrite Hi in Hn.
    destruct (assoc "idleMinutes" sfields) as [y|]; [|done].
    rewrite safeParse_ZOptional_Some in Hn. cbn [safeParse] in Hn.
    destruct y as [| |n| | |]; try done.
    destruct (is_finite n && forallb (run_check n) [Int; Positive]) eqn:E;
      [|done].
    inversion Hn; subst. destruct (checks_int_positive n E) as (q & p & -> & Hq).
    eauto.
  - intros sc Hsc.
    match type of Hl with
    | context [("session", ?f)] => specialize (Hl "session" f)
    end.
    rewrite H in Hl.
    destruct (assoc "session" fields) as [x|];
      [|discriminate Hl;
        repeat first [apply list_elem_of_here | apply list_elem_of_further]].
    rewrite safeParse_ZOptional_Some in Hl.
    match type of Hl with
    | _ → safeParse (ZObject ?sh) _ = _ => set (sshape := sh) in Hl
    end.
    destruct (safeParse_object_inv sshape x (Some s)
                (Hl ltac:(repeat first [apply list_elem_of_here
                                       | apply list_elem_of_further])))
      as (sfields & sout & -> & [= ->] & Hshape).
    clear Hl. simpl in Hsc.
    pose proof (parse_shape_lookup safeParse sfields sshape sout
                  "scope"
                  (ZOptional (ZUnion [ZLiteral "per-sender"; ZLiteral "global"]))
                  Hshape
                  ltac:(apply (bool_decide_unpack _); by vm_compute)
                  ltac:(subst sshape;
                        repeat first [apply list_elem_of_here
                                     | apply list_elem_of_further])) as Hn.
    rewrite Hsc in Hn.
    destruct (assoc "scope" sfields) as [y|]; [|done].
    rewrite safeParse_ZOptional_Some in Hn.
    destruct (first_match_literal _ y sc Hn eq_refl) as (-> & lit & Hin & ->).
    repeat (apply elem_of_cons in Hin as [Hin|Hin];
            [inversion Hin; subst; eauto|]).
    by apply elem_of_nil in Hin.
Qed.

End ReplyTyped.

(** A reply block with a timeout of 120 seconds. *)
Lemma ReplySchema_typed_witness :
  ∃ q p, JNum (NFin 120) = JNum (NFin q) ∧ Qeq q (inject_Z (Z.pos p)).
Proof.
  eapply (proj1 (ReplySchema_typed Config.reply_full _ _)).
  Unshelve.
  3: { vm_compute. reflexivity. }
  reflexivity.
Defined.

(** ** The types behind an accepted configuration *)

Section WarelayTyped.

Import Zod Config.

Ltac find_field :=
  repeat first [apply list_elem_of_here | apply list_elem_of_further].

Ltac distinct_keys := apply (bool_decide_unpack _); by vm_compute.

Lemma safeParse_strings (x d : json) :
  safeParse (ZArray ZString) (Some x) = Success (Some d) →
  ∃ l, d = JArr l ∧ Forall is_string l.
Proof.
  simpl. destruct x as [| | | |items|]; try done.
  destruct (parse_items safeParse ZString items) as [out|] eqn:Hi; [|done].
  intros [= <-]. exists out. split; [done | by eapply parse_items_strings].
Qed.

(** A configuration that passed validation has usable settings: a logging
    level is one of the seven levels, [allowFrom] is an array of strings, and a
    [transcribeAudio] block always has its [command], an array of strings. *)
Theorem WarelaySchema_typed (v d : json) :
  safeParse WarelaySchema (Some v) = Success (Some d) →
  (∀ logging level,
     get "logging" d = Some logging → get "level" logging = Some level →
     level ∈ JStr <$> ["silent"; "fatal"; "error"; "warn"; "info"; "debug";
                       "trace"]) ∧
  (∀ inbound,
     get "inbound" d = Some inbound →
     (∀ allow, get "allowFrom" inbound = Some allow →
        ∃ l, allow = JArr l ∧ Forall is_string l) ∧
     (∀ audio, get "transcribeAudio" inbound = Some audio →
        ∃ argv, get "command" audio = Some (JArr argv) ∧ Forall is_string argv)).
Proof.
  intros Hs. unfold WarelaySchema in Hs.
  apply safeParse_object_inv in Hs as (fields & out & -> & [= ->] & Hshape).
  match type of Hshape with
  | parse_shape _ _ ?sh = _ => set (shape := sh) in Hshape
  end.
  assert (NoDup shape.*1) as Hnd by distinct_keys.
  split.
  - intros logging level Hlog Hlevel. simpl in Hlog.
    eassert (("logging", _) ∈ shape) as Hin by (subst shape; find_field).
    pose proof (parse_shape_lookup safeParse fields shape out "logging" _
                  Hshape Hnd Hin) as Hl.
    rewrite Hlog in Hl. clear Hin Hnd Hshape. clearbody shape.
    destruct (assoc "logging" fields) as [x|]; [|done].
    rewrite safeParse_ZOptional_Some in Hl.
    apply safeParse_object_inv in Hl as (lfields & lout & -> & [= ->] & Hlshape).
    simpl in Hlevel.
    match type of Hlshape with
    | parse_shape _ _ ?sh = _ => set (lshape := sh) in Hlshape
    end.
    eassert (("level", _) ∈ lshape) as Hin by (subst lshape; find_field).
    pose proof (parse_shape_lookup safeParse lfields lshape lout "level" _
                  Hlshape ltac:(distinct_keys) Hin) as Hv.
    rewrite Hlevel in Hv. clear Hin Hlshape. clearbody lshape.
    destruct (assoc "level" lfields) as [y|]; [|done].
    rewrite safeParse_ZOptional_Some in Hv.
    destruct (first_match_literal _ y level Hv eq_refl) as (-> & lit & Hlit & ->).
    repeat (apply elem_of_cons in Hlit as [Hlit|Hlit];
            [inversion Hlit; subst; find_field|]).
    by apply elem_of_nil in Hlit.
  - intros inbound Hinb. simpl in Hinb.
    eassert (("inbound", _) ∈ shape) as Hin by (subst shape; find_field).
    pose proof (parse_shape_lookup safeParse fields shape out "inbound" _
                  Hshape Hnd Hin) as Hi.
    rewrite Hinb in Hi. clear Hin Hnd Hshape. clearbody shape.
    destruct (assoc "inbound" fields) as [x|]; [|done].
    rewrite safeParse_ZOptional_Some in Hi.
    apply safeParse_object_inv in Hi as (ifields & iout & -> & [= ->] & Hishape).
    match type of Hishape with
    | parse_shape _ _ ?sh = _ => set (ishape := sh) in Hishape
    end.
    assert (NoDup ishape.*1) as Hind by distinct_keys.
    split.
    + intros allow Hallow. simpl in Hallow.
      eassert (("allowFrom", _) ∈ ishape) as Hin by (subst ishape; find_field).
      pose proof (parse_shape_lookup safeParse ifields ishape iout "allowFrom"
                    _ Hishape Hind Hin) as Ha.
      rewrite Hallow in Ha. clear Hin Hind Hishape. clearbody ishape.
      destruct (assoc "allowFrom" ifields) as [y|]; [|done].
      rewrite safeParse_ZOptional_Some in Ha. by eapply safeParse_strings.
    + intros audio Haudio. simpl in Haudio.
      eassert (("transcribeAudio", _) ∈ ishape) as Hin
        by (subst ishape; find_field).
      pose proof (parse_shape_lookup safeParse ifields ishape iout
                    "transcribeAudio" _ Hishape Hind Hin) as Ha.
      rewrite Haudio in Ha. clear Hin Hind Hishape. clearbody ishape.
      destruct (assoc "transcribeAudio" ifields) as [y|]; [|done].
      rewrite safeParse_ZOptional_Some in Ha.
      apply safeParse_object_inv in Ha as (afields & aout & -> & [= ->] & Hashape).
      match type of Hashape with
      | parse_shape _ _ ?sh = _ => set (ashape := sh) in Hashape
      end.
      eassert (("command", _) ∈ ashape) as Hin by (subst ashape; find_field).
      pose proof (parse_shape_lookup safeParse afields ashape aout "command" _
                    Hashape ltac:(distinct_keys) Hin) as Hc.
      clear Hin Hashape. clearbody ashape. simpl.
      destruct (assoc "command" afields) as [z|]; [|done].
      destruct (assoc "command" aout) as [c|] eqn:Hout.
      * destruct (safeParse_strings _ _ Hc) as (argv & -> & Hargv). eauto.
      * exfalso. simpl in Hc. destruct z as [| | | |items|]; try done.
        by destruct (parse_items safeParse ZString items).
Qed.

End WarelayTyped.

(** The transcription block of a configuration with a whisper command. *)
Lemma WarelaySchema_typed_witness :
  ∃ argv,
    get "command"
      (JObj [ ("command", JArr [JStr "whisper"; JStr "{{MediaPath}}"]) ])
      = Some (JArr argv) ∧
    Forall Config.is_string argv.
Proof.
  pose proof (WarelaySchema_typed Config.config_audio Config.config_audio
                eq_refl) as [_ Hinbound].
  edestruct Hinbound as [_ Haudio]; [reflexivity|].
  eapply Haudio. reflexivity.
Defined.

(** ** What the reply schema lets through *)

Section ReplyAccepted.

Import Zod Config.

Lemma parse_items_of_strings (argv : list string) :
  parse_items safeParse ZString (JStr <$> argv) = Some (JStr <$> argv).
Proof.
  induction argv as [|a argv IH]; [done|].
  cbn [fmap list_fmap parse_items safeParse]. fold (JStr <$> argv).
  by rewrite IH.
Qed.

(** The least a reply block needs: with mode "text" any non-empty text is
    accepted; with mode "command" any array of strings is accepted as the
    command, the empty array too, so validation does not promise that the
    argv has a first element. *)
Theorem ReplySchema_accepts_minimal (text : string) (argv : list string) :
  (text ≠ "" →
   safeParse ReplySchema (Some (JObj [("mode", JStr "text"); ("text", JStr text)]))
   = Success (Some (JObj [("mode", JStr "text"); ("text", JStr text)]))) ∧
  safeParse ReplySchema
    (Some (JObj [("mode", JStr "command"); ("command", JArr (JStr <$> argv))]))
  = Success
      (Some (JObj [("mode", JStr "command"); ("command", JArr (JStr <$> argv))])).
Proof.
  split.
  - intros Hne. apply String.eqb_neq in Hne.
    unfold ReplySchema. rewrite safeParse_ZRefine, safeParse_ZObject.
    cbn. by rewrite Hne.
  - pose proof (parse_items_of_strings argv) as Hitems. revert Hitems.
    generalize (JStr <$> argv). intros items Hitems.
    unfold ReplySchema. rewrite safeParse_ZRefine, safeParse_ZObject.
    cbn -[parse_items]. rewrite Hitems. reflexivity.
Qed.

End ReplyAccepted.

(** The text reply of the tests. *)
Lemma ReplySchema_accepts_minimal_witness :
  Zod.safeParse Config.ReplySchema
    (Some (JObj [("mode", JStr "text"); ("text", JStr "Hello {{From}} {{Body}}")]))
  = Zod.Success
      (Some (JObj [("mode", JStr "text");
                   ("text", JStr "Hello {{From}} {{Body}}")])).
Proof.
  refine (proj1 (ReplySchema_accepts_minimal "Hello {{From}} {{Body}}" []) _).
  discriminate.
Defined.

(** ** The media token extractor *)

Section MediaTests.

Import Text Reply Media.

(** The outcomes the repository's tests expect. *)
Example media_test_url_line :
  commandReply None
    (Completed (stdout_lines ["hello"; "MEDIA: https://example.com/img.jpg"; ""]))
  = {| text := "hello"; mediaUrl := Some "https://example.com/img.jpg" |}.
Proof. vm_compute. reflexivity. Qed.

Example media_test_trailing_text :
  mediaUrl (commandReply None
              (Completed (stdout_lines
                            ["hello"; "MEDIA:/tmp/pic.png extra words here"; ""])))
  = Some "/tmp/pic.png".
Proof. vm_compute. reflexivity. Qed.

Example media_test_inline :
  commandReply None
    (Completed "caption before MEDIA:/tmp/pic.png caption after")
  = {| text := "caption before caption after"; mediaUrl := Some "/tmp/pic.png" |}.
Proof. vm_compute. reflexivity. Qed.

Example media_test_backticks :
  mediaUrl (commandReply None (Completed "MEDIA:`/tmp/pic.png` cool"))
  = Some "/tmp/pic.png".
Proof. vm_compute. reflexivity. Qed.

Example media_test_json_tail :
  mediaUrl (commandReply None
              (Completed (str (chars "MEDIA:/tmp/pic.png" ++ [double_quote]
                               ++ chars "} trailing"))))
  = Some "/tmp/pic.png".
Proof. vm_compute. reflexivity. Qed.

Example media_test_invalid_line :
  commandReply None (Completed stdout_invalid_media)
  = {| text := stdout_lines ["hello"; "rest"]; mediaUrl := None |}.
Proof. vm_compute. reflexivity. Qed.

Example media_test_split :
  splitMediaFromOutput (stdout_lines ["line1"; "MEDIA:https://x/y.png"; "line2"])
  = {| text := stdout_lines ["line1"; "line2"]; mediaUrl := Some "https://x/y.png" |}.
Proof. vm_compute. reflexivity. Qed.

Example media_test_no_output :
  commandReply None (Completed "")
  = {| text := "(command produced no output)"; mediaUrl := None |}.
Proof. vm_compute. reflexivity. Qed.



End MediaTests.

(** ** Scanning for the marker *)

Section MediaFacts.

Import Text Reply Media.














End MediaFacts.


(** ** A marker put into a text *)

Section MediaInserted.

Import Text Reply Media.










End MediaInserted.


(** ** Flags for the assistant binary *)

Section BuilderFacts.

Import Text Builder.





(** The flag injection test: command ["claude"; "{{Body}}"] rendered for the
    body "hi", with the format "text". *)
Example claude_flags_test :
  buildClaudeArgv test_preamble (Some FormatText) ["claude"; "hi"]
  = ["claude"; "--output-format"; "text"; "-p"; test_preamble +:+ "hi"].
Proof. reflexivity. Qed.

(** No format configured: "text" is injected. *)
Example claude_flags_default_format :
  buildClaudeArgv test_preamble None ["claude"; "--model"; "sonnet"; "hi"]
  = ["claude"; "--model"; "sonnet"; "--output-format"; "text"; "-p";
     test_preamble +:+ "hi"].
Proof. reflexivity. Qed.

(** Another binary: the argv is left alone. *)
Example other_binary_untouched :
  buildClaudeArgv test_preamble (Some FormatJson) ["echo"; "hi"] = ["echo"; "hi"].
Proof. reflexivity. Qed.

End BuilderFacts.

(** ** The session manager across two turns *)

Section SessionFacts.

Import Text Sessions Builder SessionManager.

Variable normalizeE164 : string → string.
















(** The session store test: the argv of the first turn, and the third element
    of the argv of the second. *)
Example session_store_test :
  let first :=
    turn (λ from, from) session_test_config ∅ 1000 "session-123"
      (message "/new hello" "+1555" "+1666") in
  let second :=
    turn (λ from, from) session_test_config (store_after first) 2000
      "session-456" (message "next" "+1555" "+1666") in
  argv first = ["echo"; "[tmpl]"; "--sid"; "session-123"; "hello"] ∧
  argv second !! 2%nat = Some "--resume" ∧
  argv second = ["echo"; "[tmpl]"; "--resume"; "session-123"; "next"].
Proof. by vm_compute. Qed.

(** The system prompt test: intro, body prefix and template reach the command
    on the first turn of the session only, and the entry records it. *)
Example system_once_test :
  let first :=
    turn (λ from, from) system_once_test_config ∅ 1000 "sid-1"
      (message "/new hi" "+1" "+2") in
  let second :=
    turn (λ from, from) system_once_test_config (store_after first) 2000
      "sid-2" (message "next" "+1" "+2") in
  argv first
  = ["echo"; "[tmpl]"; "--sid"; "sid-1"; "SYS" +:+ NL +:+ NL +:+ "[pfx] hi"] ∧
  argv second = ["echo"; "--resume"; "sid-1"; "next"] ∧
  systemSent (saved first) = Some true.
Proof. by vm_compute. Qed.

End SessionFacts.

